(** * patent_fetcher.parse: the HTML-tree-to-node extraction engine

    A shallow embedding of [src/patent_fetcher/parse.py].  The BeautifulSoup
    tree is an inductive type whose tags carry the integer that Python's
    [id()] returns for them; dictionaries are insertion-ordered association
    lists, as Python's [dict] is; the module-level set [hack], the logger and
    the exceptions are threaded through a state-and-exception monad.  The
    recursive walker is given twice: on an unbounded call stack, and with a
    bound on the frames it may push, past which it raises [RecursionError]. *)

From stdpp Require Import gmap strings list.
From Stdlib Require Import Ascii String.

Set Warnings "-register-all,-clear-no-such-hyp".
Local Open Scope string_scope.
Local Open Scope list_scope.

(** ** Python [str] on the ASCII range

    Characters are the 8-bit codes of [ascii]; the predicates and the case
    conversions are those of Python on the codes below 128, and the codes
    from 128 on are neither space nor alphanumeric and have no case. *)

Module PyStr.

Definition code (c : ascii) : nat := nat_of_ascii c.

(** [str.isspace]: TAB..CR, FS..US and the space. *)
Definition isspace (c : ascii) : bool :=
  let n := code c in
  ((9 <=? n)%nat && (n <=? 13)%nat) || ((28 <=? n)%nat && (n <=? 32)%nat).

Definition isdigit (c : ascii) : bool :=
  let n := code c in (48 <=? n)%nat && (n <=? 57)%nat.

Definition isupper (c : ascii) : bool :=
  let n := code c in (65 <=? n)%nat && (n <=? 90)%nat.

Definition islower (c : ascii) : bool :=
  let n := code c in (97 <=? n)%nat && (n <=? 122)%nat.

Definition isalnum (c : ascii) : bool := isdigit c || isupper c || islower c.

Definition lower_char (c : ascii) : ascii :=
  if isupper c then ascii_of_nat (code c + 32) else c.

Definition upper_char (c : ascii) : ascii :=
  if islower c then ascii_of_nat (code c - 32) else c.

Fixpoint lower (s : string) : string :=
  match s with
  | EmptyString => EmptyString
  | String c r => String (lower_char c) (lower r)
  end.

(** [str.capitalize]: first character upper-cased, the rest lower-cased. *)
Definition capitalize (s : string) : string :=
  match s with
  | EmptyString => EmptyString
  | String c r => String (upper_char c) (lower r)
  end.

Fixpoint lstrip (s : string) : string :=
  match s with
  | EmptyString => EmptyString
  | String c r => if isspace c then lstrip r else s
  end.

Fixpoint rstrip (s : string) : string :=
  match s with
  | EmptyString => EmptyString
  | String c r =>
      match rstrip r with
      | EmptyString => if isspace c then EmptyString else String c EmptyString
      | r' => String c r'
      end
  end.

Definition strip (s : string) : string := rstrip (lstrip s).

(** [str.split()] with no argument: the maximal runs of non-space
    characters.  [word] is the run being read. *)
Fixpoint split_from (word : string) (s : string) : list string :=
  match s with
  | EmptyString => match word with EmptyString => [] | _ => [word] end
  | String c r =>
      if isspace c
      then match word with
           | EmptyString => split_from EmptyString r
           | _ => word :: split_from EmptyString r
           end
      else split_from (word +:+ String c EmptyString) r
  end.

Definition split (s : string) : list string := split_from EmptyString s.

(** [str.join] on the empty separator *)
Definition join_empty (parts : list string) : string :=
  fold_right String.append EmptyString parts.

(** [" ".join(parts)] *)
Fixpoint join_space (parts : list string) : string :=
  match parts with
  | [] => EmptyString
  | [p] => p
  | p :: rest => p +:+ " " +:+ join_space rest
  end.

Definition is_prefix (p s : string) : bool := String.prefix p s.

(** [sub in s] on strings. *)
Fixpoint contains (sub s : string) : bool :=
  is_prefix sub s ||
  match s with
  | EmptyString => false
  | String _ r => contains sub r
  end.

Definition eqb (a b : string) : bool := bool_decide (a = b).

Definition mem (a : string) (l : list string) : bool := bool_decide (a ∈ l).

End PyStr.


(** ** The BeautifulSoup tree

    A [Tag] carries the integer [id(tag)] of the Python object, its name, its
    attribute dictionary and its contents.  A string in the tree is a
    [NavigableString], or a [Comment] (the string kinds that [get_text]
    leaves out).  With [html.parser] the value of [class] is a list of
    strings and the value of any attribute this module reads by name is a
    string. *)

Inductive attr :=
| AStr (s : string)
| AList (l : list string).

Inductive elem :=
| ETag (t : tag)
| NavigableString (s : string)
| Comment (s : string)
with tag :=
| Tag (id : nat) (name : string) (attrs : list (string * attr)) (contents : forest)
with forest :=
| fnil
| fcons (e : elem) (f : forest).

Fixpoint forest_of (l : list elem) : forest :=
  match l with
  | [] => fnil
  | e :: r => fcons e (forest_of r)
  end.

Definition tag_id (t : tag) : nat := let 'Tag i _ _ _ := t in i.
Definition tag_name (t : tag) : string := let 'Tag _ n _ _ := t in n.
Definition tag_attrs (t : tag) : list (string * attr) := let 'Tag _ _ a _ := t in a.
Definition tag_contents (t : tag) : forest := let 'Tag _ _ _ c := t in c.

(** [tag.get(key)] *)
Fixpoint attrs_get (key : string) (attrs : list (string * attr)) : option attr :=
  match attrs with
  | [] => None
  | (k, v) :: r => if PyStr.eqb k key then Some v else attrs_get key r
  end.

Definition tag_get (t : tag) (key : string) : option attr := attrs_get key (tag_attrs t).

(** [tag.has_attr(key)] *)
Definition has_attr (t : tag) (key : string) : bool :=
  match tag_get t key with Some _ => true | None => false end.

(** Truth value of what [tag.get] returned: [None], the empty string and the
    empty list are false. *)
Definition truthy (a : option attr) : option attr :=
  match a with
  | None => None
  | Some (AStr EmptyString) => None
  | Some (AList []) => None
  | Some v => Some v
  end.

(** [tag.string]: the only child when it is a string, the [.string] of the
    only child when it is a tag, [None] otherwise. *)
Fixpoint dot_string (t : tag) : option string :=
  match t with
  | Tag _ _ _ (fcons (NavigableString s) fnil) => Some s
  | Tag _ _ _ (fcons (Comment s) fnil) => Some s
  | Tag _ _ _ (fcons (ETag c) fnil) => dot_string c
  | Tag _ _ _ _ => None
  end.

(** The [NavigableString]s below a tag, in document order. *)
Fixpoint forest_strings (f : forest) : list string :=
  match f with
  | fnil => []
  | fcons (NavigableString s) r => s :: forest_strings r
  | fcons (Comment _) r => forest_strings r
  | fcons (ETag (Tag _ _ _ c)) r => forest_strings c ++ forest_strings r
  end.

(** [tag.get_text(strip=True)]: every string stripped, the empty ones
    dropped, the rest concatenated. *)
Definition get_text_strip (t : tag) : string :=
  PyStr.join_empty
    (filter (λ s, s ≠ EmptyString) (map PyStr.strip (forest_strings (tag_contents t)))).

(** A tag together with what its parent pointers reach: the ancestors
    (nearest first) and the following siblings. *)
Record located := Loc {
  loc_tag : tag;
  loc_parents : list tag;
  loc_next_siblings : forest
}.

(** [tag.descendants], tags only, in document order. *)
Fixpoint descendants (parents : list tag) (f : forest) : list located :=
  match f with
  | fnil => []
  | fcons (ETag t) r =>
      Loc t parents r :: descendants (t :: parents) (tag_contents t) ++ descendants parents r
  | fcons _ r => descendants parents r
  end.

Definition tag_descendants (l : located) : list located :=
  descendants (loc_tag l :: loc_parents l) (tag_contents (loc_tag l)).

(** [tag.find_all(pred)] and [tag.find(pred)] *)
Definition find_all (l : located) (pred : tag → bool) : list located :=
  filter (λ d, pred (loc_tag d) = true) (tag_descendants l).

Definition find (l : located) (pred : tag → bool) : option located :=
  head (find_all l pred).

(** [tag.find_parent(pred)] *)
Definition find_parent (l : located) (pred : tag → bool) : option tag :=
  List.find pred (loc_parents l).

Definition named (n : string) (t : tag) : bool := PyStr.eqb (tag_name t) n.

(** ** Nodes: Python dictionaries, in insertion order *)

Inductive value :=
| VNone
| VStr (s : string)
| VList (l : list value)
| VDict (d : list (string * value)).

Definition Node : Type := list (string * value).
Definition Field : Type := (string * value)%type.

(** [d[k] = v] *)
Fixpoint dict_set (k : string) (v : value) (d : Node) : Node :=
  match d with
  | [] => [(k, v)]
  | (k', v') :: r => if PyStr.eqb k' k then (k', v) :: r else (k', v') :: dict_set k v r
  end.

(** [d.get(k)] *)
Fixpoint dict_get (k : string) (d : Node) : option value :=
  match d with
  | [] => None
  | (k', v') :: r => if PyStr.eqb k' k then Some v' else dict_get k r
  end.

Definition dict_keys (d : Node) : list string := map fst d.

(** [dict(fields)] *)
Definition dict (fields : list Field) : Node :=
  fold_left (λ d kv, dict_set kv.1 kv.2 d) fields [].

Definition attr_value (a : attr) : value :=
  match a with
  | AStr s => VStr s
  | AList l => VList (map VStr l)
  end.

Definition attrs_items (t : tag) : list Field :=
  map (λ kv, (kv.1, attr_value kv.2)) (tag_attrs t).

(** ** Effects: the set [hack], the logger, exceptions

    A computation takes the state of the process (the module-level set
    [hack] and what [logger.warning] has received so far) and returns either
    a value or the exception raised, with the state it leaves.  The
    [logger.debug] calls have no counterpart. *)

Inductive assert_site :=
| assert_root               (* assert root *)
| assert_article            (* assert isinstance(article, Tag) *)
| assert_property_name      (* assert isinstance(property_name, str), line 74 *)
| assert_section_name       (* assert isinstance(property_name, str), line 175 *)
| assert_abstract           (* assert isinstance(abstract, Tag) *)
| assert_description        (* assert isinstance(description, Tag) *)
| assert_claims_tag         (* assert isinstance(claims_tag, Tag) *)
| assert_claim.             (* assert isinstance(claim, Tag) *)

Inductive exn :=
| AssertionError (site : assert_site)
| KeyError (key : string)   (* section["itemprop"] *)
| AttributeError            (* .append on a value that is not a list *)
| IndexError                (* part[0] *)
| RecursionError.           (* a call when the call stack is full *)

(** The messages of [logger.warning]; the second carries the tag that the
    source renders with its [tag_string]. *)
Inductive warning :=
| LabelTagHasNoString
| OmittingPropertyValue (t : tag)
| UnhandledSection (attrs : list (string * attr)).

Record world := World {
  hack : gset nat;
  warnings : list warning
}.

Inductive outcome (A : Type) :=
| Ok (a : A)
| Raise (e : exn).
Arguments Ok {A} a.
Arguments Raise {A} e.

Definition M (A : Type) : Type := world → outcome A * world.

Definition ret {A} (a : A) : M A := λ w, (Ok a, w).

Definition bind {A B} (m : M A) (k : A → M B) : M B :=
  λ w, match m w with
       | (Ok a, w') => k a w'
       | (Raise e, w') => (Raise e, w')
       end.

Definition raise {A} (e : exn) : M A := λ w, (Raise e, w).

Declare Scope py_scope.
Delimit Scope py_scope with py.
Notation "x <- c ;; k" := (bind c (λ x, k))
  (at level 100, c at next level, right associativity) : py_scope.
Notation "c ;;; k" := (bind c (λ _, k))
  (at level 100, right associativity) : py_scope.
Local Open Scope py_scope.

(** [id(tag) in hack] *)
Definition hack_mem (i : nat) : M bool := λ w, (Ok (bool_decide (i ∈ hack w)), w).

(** [hack.add(id(tag))] *)
Definition hack_add (i : nat) : M unit :=
  λ w, (Ok (), World ({[ i ]} ∪ hack w) (warnings w)).

(** [logger.warning(...)] *)
Definition warn (msg : warning) : M unit :=
  λ w, (Ok (), World (hack w) (warnings w ++ [msg])).

(** ** Tag predicates *)

(** [has_class]: [classes = tag.get("class") or []], [class_name in classes]. *)
Definition has_class (t : tag) (class_name : string) : bool :=
  match truthy (tag_get t "class") with
  | None => false
  | Some (AList classes) => PyStr.mem class_name classes
  | Some (AStr classes) => PyStr.contains class_name classes
  end.

Definition START_TAGS : list string := ["dt"; "h2"].

Definition is_start_tag (t : tag) : bool := PyStr.mem (tag_name t) START_TAGS.

(** ** The label normalizer *)

(** The loop of [parse_label] over [enumerate(raw.split())]. *)
Fixpoint parse_label_loop (i : nat) (words : list string) (parts : list string)
  : M (list string) :=
  match words with
  | [] => ret parts
  | part :: rest =>
      match part with
      | EmptyString => raise IndexError
      | String c _ =>
          if negb (PyStr.isalnum c) then ret parts
          else
            parse_label_loop (S i) rest
              (parts ++ [match i with
                         | O => PyStr.lower part
                         | S _ => PyStr.capitalize part
                         end])
      end
  end.

Definition parse_label (t : tag) : M string :=
  match dot_string t with
  | None => warn LabelTagHasNoString ;;; ret EmptyString
  | Some raw =>
      let raw := PyStr.strip raw in
      parts <- parse_label_loop 0 (PyStr.split raw) [] ;;
      ret (PyStr.join_empty parts)
  end.

(** ** The property value extractor and the recursive property walker

    [parse_properties], [parse_children_properties] and
    [parse_siblings_properties] call one another.  The bodies of
    [property_value] and [parse_properties] are written once, over the two
    loops they start ([walk_children] over [tag.children], [walk_siblings]
    over [tag.next_siblings]); the loops are then tied by recursion on the
    tree.  Here nothing bounds the depth of the recursion; the walker on
    a bounded call stack follows the entry point. *)

Definition property_value_with (walk_children : Node → M Node) (t : tag) : M value :=
  if has_attr t "itemscope" then
    child_node <- walk_children [] ;;
    ret (VDict child_node)
  else
    match truthy (tag_get t "content") with
    | Some content => ret (attr_value content)
    | None =>
    match truthy (tag_get t "href") with
    | Some href => ret (attr_value href)
    | None =>
    match truthy (tag_get t "src") with
    | Some src => ret (attr_value src)
    | None =>
    match dot_string t with
    | None => warn (OmittingPropertyValue t) ;;; ret VNone
    | Some text => ret (VStr (PyStr.strip text))
    end end end end.

Definition parse_properties_with (walk_siblings walk_children : Node → M Node)
    (t : tag) (current_node : Node) : M Node :=
  visited <- hack_mem (tag_id t) ;;
  if visited : bool then ret current_node
  else
    hack_add (tag_id t) ;;;
    if is_start_tag t then
      label <- parse_label t ;;
      child_node <- walk_siblings [] ;;
      ret (dict_set label (VDict child_node) current_node)
    else
      match truthy (tag_get t "itemprop") with
      | None => walk_children current_node
      | Some (AList _) => raise (AssertionError assert_property_name)
      | Some (AStr property_name) =>
          if named "section" t then ret current_node
          else
            value <- property_value_with walk_children t ;;
            if has_attr t "repeat" then
              match dict_get property_name current_node with
              | None => ret (dict_set property_name (VList [value]) current_node)
              | Some (VList l) =>
                  ret (dict_set property_name (VList (l ++ [value])) current_node)
              | Some _ => raise AttributeError
              end
            else ret (dict_set property_name value current_node)
      end.

Fixpoint children_loop (children : forest) (current_node : Node) {struct children}
  : M Node :=
  match children with
  | fnil => ret current_node
  | fcons (ETag child) rest =>
      node <- parse_properties_with
                (siblings_loop rest) (children_loop (tag_contents child))
                child current_node ;;
      children_loop rest node
  | fcons _ rest => children_loop rest current_node
  end
with siblings_loop (next_siblings : forest) (current_node : Node) {struct next_siblings}
  : M Node :=
  match next_siblings with
  | fnil => ret current_node
  | fcons (ETag sibling) rest =>
      if is_start_tag sibling then ret current_node
      else
        node <- parse_properties_with
                  (siblings_loop rest) (children_loop (tag_contents sibling))
                  sibling current_node ;;
        siblings_loop rest node
  | fcons _ rest => siblings_loop rest current_node
  end.

Definition parse_children_properties (t : tag) (current_node : Node) : M Node :=
  children_loop (tag_contents t) current_node.

Definition parse_siblings_properties (next_siblings : forest) (current_node : Node)
  : M Node :=
  siblings_loop next_siblings current_node.

Definition property_value (t : tag) : M value :=
  property_value_with (parse_children_properties t) t.

Definition parse_properties (t : tag) (next_siblings : forest) (current_node : Node)
  : M Node :=
  parse_properties_with
    (parse_siblings_properties next_siblings) (parse_children_properties t)
    t current_node.

(** ** The specialised section parsers *)

(** [attrs_except_class] *)
Definition attrs_except_class (t : tag) : list Field :=
  filter (λ kv, kv.1 ≠ "class") (attrs_items t).

(** [parse_abstract] *)
Definition parse_abstract (section : located) : M (list Field) :=
  match find section (named "abstract") with
  | None => raise (AssertionError assert_abstract)
  | Some abstract =>
      ret (attrs_items (loc_tag abstract)
             ++ [("content", VStr (get_text_strip (loc_tag abstract)))])
  end.

(** What [find(attrs={"class": "description"})] tests on a tag: one of the
    classes is the given one, or the classes joined by spaces are. *)
Definition class_matches (class_name : string) (t : tag) : bool :=
  match tag_get t "class" with
  | None => false
  | Some (AStr classes) => PyStr.eqb classes class_name
  | Some (AList classes) =>
      PyStr.mem class_name classes || PyStr.eqb (PyStr.join_space classes) class_name
  end.

(** [is_target] of [parse_description] *)
Definition is_target (t : tag) : bool :=
  named "heading" t || has_class t "description-line".

Record part := Part {
  heading : string;
  lines : list value
}.

(** [new_part] *)
Definition new_part (heading : string) : part := Part heading [].

(** The dictionary a part is: [{"heading": heading, "lines": lines}]. *)
Definition part_node (p : part) : value :=
  VDict [("heading", VStr (heading p)); ("lines", VList (lines p))].

Definition opt_attr_value (a : option attr) : value :=
  match a with
  | None => VNone
  | Some v => attr_value v
  end.

(** [{"num": tag.get("num"), "text": text}] *)
Definition line_node (t : tag) (text : string) : value :=
  VDict [("num", opt_attr_value (tag_get t "num")); ("text", VStr text)].

(** The loop of [parse_description] over [description.find_all(is_target)],
    and the [parts.append(current_part)] that follows it. *)
Fixpoint parts_loop (targets : list tag) (parts : list part) (current_part : part)
  : list part :=
  match targets with
  | [] => parts ++ [current_part]
  | t :: rest =>
      let text := get_text_strip t in
      if named "heading" t
      then parts_loop rest (parts ++ [current_part]) (new_part text)
      else parts_loop rest parts
             (Part (heading current_part) (lines current_part ++ [line_node t text]))
  end.

Definition description_parts (description : located) : list part :=
  parts_loop (map loc_tag (find_all description is_target)) [] (new_part EmptyString).

(** [parse_description] *)
Definition parse_description (section : located) : M (list Field) :=
  match find section (class_matches "description") with
  | None => raise (AssertionError assert_description)
  | Some description =>
      ret (attrs_except_class (loc_tag description)
             ++ [("parts", VList (map part_node (description_parts description)))])
  end.

(** The loop of [find_claims]: [yielded] is what the generator has produced
    so far. *)
Fixpoint find_claims_loop (text_tags : list located) (seen_tags : gset nat)
    (yielded : list tag) : M (list tag) :=
  match text_tags with
  | [] => ret yielded
  | text_tag :: rest =>
      match find_parent text_tag (λ t, has_class t "claim") with
      | None => raise (AssertionError assert_claim)
      | Some claim =>
          find_claims_loop rest ({[ tag_id claim ]} ∪ seen_tags)
            (if bool_decide (tag_id claim ∈ seen_tags) then yielded
             else yielded ++ [claim])
      end
  end.

(** [find_claims] *)
Definition find_claims (claims_tag : located) : M (list tag) :=
  find_claims_loop (find_all claims_tag (λ t, has_class t "claim-text")) ∅ [].

(** [parse_claim] *)
Definition parse_claim (claim : tag) : list Field :=
  attrs_except_class claim ++ [("text", VStr (get_text_strip claim))].

(** [parse_claims] *)
Definition parse_claims (section : located) : M (list Field) :=
  match find section (λ t, has_class t "claims") with
  | None => raise (AssertionError assert_claims_tag)
  | Some claims_tag =>
      claims <- find_claims claims_tag ;;
      let parsed_claims := map (λ claim, VDict (dict (parse_claim claim))) claims in
      ret (attrs_except_class (loc_tag claims_tag) ++ [("claims", VList parsed_claims)])
  end.

(** ** The section dispatcher *)

(** [is_section] of [parse_sections] *)
Definition is_section (t : tag) : bool :=
  named "section" t && has_attr t "itemscope".

(** The [match property_name] of [parse_sections]. *)
Definition dispatch_section (property_name : string) (section : located) : M value :=
  if PyStr.eqb property_name "abstract" then
    fields <- parse_abstract section ;; ret (VDict (dict fields))
  else if PyStr.eqb property_name "description" then
    fields <- parse_description section ;; ret (VDict (dict fields))
  else if PyStr.eqb property_name "claims" then
    fields <- parse_claims section ;; ret (VDict (dict fields))
  else
    warn (UnhandledSection (tag_attrs (loc_tag section))) ;;; ret VNone.

(** The loop of [parse_sections] over [article.find_all(is_section)]. *)
Fixpoint sections_loop (sections : list located) (current_node : Node) : M Node :=
  match sections with
  | [] => ret current_node
  | section :: rest =>
      match tag_get (loc_tag section) "itemprop" with
      | None => raise (KeyError "itemprop")
      | Some (AList _) => raise (AssertionError assert_section_name)
      | Some (AStr property_name) =>
          value <- dispatch_section property_name section ;;
          sections_loop rest (dict_set property_name value current_node)
      end
  end.

(** [parse_sections] *)
Definition parse_sections (article : located) (current_node : Node) : M Node :=
  sections_loop (find_all article is_section) current_node.

(** ** The entry point

    The argument is the tree [BeautifulSoup(html, features="html.parser")]
    builds: the contents of the soup object. *)

(** [soup.html] *)
Definition soup_html (soup : forest) : option located :=
  head (filter (λ d, named "html" (loc_tag d) = true) (descendants [] soup)).

(** [parse_html] *)
Definition parse_html (soup : forest) : M Node :=
  match soup_html soup with
  | None => raise (AssertionError assert_root)
  | Some root =>
      match find root (named "article") with
      | None => raise (AssertionError assert_article)
      | Some article =>
          let data : Node := [] in
          data <- parse_properties (loc_tag article) (loc_next_siblings article) data ;;
          parse_sections article data
      end
  end.

(** The world of a process that has parsed nothing yet. *)
Definition fresh_world : world := World ∅ [].

(** ** The call stack

    CPython bounds the depth of the call stack: a call made when the stack
    is full raises [RecursionError] instead of running the function.
    [parse_properties], [property_value], [parse_children_properties] and
    [parse_siblings_properties] call one another, once or more for every
    level of nesting of the document, so theirs are the frames whose number
    grows with the input.  Below, [stack] is the number of frames these four
    functions may still push: a call of one of them takes a frame, and the
    body runs with one frame less.  The calls into the library and into the
    other functions of the module (the descent of [tag.string] along a
    chain of only children among them) are not counted: they are taken to
    fit, so [stack] is the room the limit of the interpreter leaves beyond
    them. *)

(** A call when [stack] frames are left; [body] receives what is left to
    the function called. *)
Definition call {A} (stack : nat) (body : nat → M A) : M A :=
  match stack with
  | O => raise RecursionError
  | S stack => body stack
  end.

(** A call of [property_value]; [walk_children] is the loop of
    [parse_children_properties] over the children of the tag. *)
Definition property_value_call (walk_children : nat → Node → M Node)
    (stack : nat) (t : tag) : M value :=
  call stack (λ stack,
    property_value_with (λ node, call stack (λ stack, walk_children stack node)) t).

(** A call of [parse_properties]; [walk_siblings] and [walk_children] are
    the loops of [parse_siblings_properties] and of
    [parse_children_properties], each run in the frame of its function. *)
Definition parse_properties_call (walk_siblings walk_children : nat → Node → M Node)
    (stack : nat) (t : tag) (current_node : Node) : M Node :=
  call stack (λ stack,
    visited <- hack_mem (tag_id t) ;;
    if visited : bool then ret current_node
    else
      hack_add (tag_id t) ;;;
      if is_start_tag t then
        label <- parse_label t ;;
        child_node <- call stack (λ stack, walk_siblings stack []) ;;
        ret (dict_set label (VDict child_node) current_node)
      else
        match truthy (tag_get t "itemprop") with
        | None => call stack (λ stack, walk_children stack current_node)
        | Some (AList _) => raise (AssertionError assert_property_name)
        | Some (AStr property_name) =>
            if named "section" t then ret current_node
            else
              value <- property_value_call walk_children stack t ;;
              if has_attr t "repeat" then
                match dict_get property_name current_node with
                | None => ret (dict_set property_name (VList [value]) current_node)
                | Some (VList l) =>
                    ret (dict_set property_name (VList (l ++ [value])) current_node)
                | Some _ => raise AttributeError
                end
              else ret (dict_set property_name value current_node)
        end).

(** The loops of [parse_children_properties] and [parse_siblings_properties]
    when [stack] frames are left to the calls they make. *)
Fixpoint children_loop_within (stack : nat) (children : forest) (current_node : Node)
    {struct children} : M Node :=
  match children with
  | fnil => ret current_node
  | fcons (ETag child) rest =>
      node <- parse_properties_call
                (λ stack, siblings_loop_within stack rest)
                (λ stack, children_loop_within stack (tag_contents child))
                stack child current_node ;;
      children_loop_within stack rest node
  | fcons _ rest => children_loop_within stack rest current_node
  end
with siblings_loop_within (stack : nat) (next_siblings : forest) (current_node : Node)
    {struct next_siblings} : M Node :=
  match next_siblings with
  | fnil => ret current_node
  | fcons (ETag sibling) rest =>
      if is_start_tag sibling then ret current_node
      else
        node <- parse_properties_call
                  (λ stack, siblings_loop_within stack rest)
                  (λ stack, children_loop_within stack (tag_contents sibling))
                  stack sibling current_node ;;
        siblings_loop_within stack rest node
  | fcons _ rest => siblings_loop_within stack rest current_node
  end.

(** The four functions, called when [stack] frames are left. *)
Definition parse_children_properties_within (stack : nat) (t : tag) (current_node : Node)
  : M Node :=
  call stack (λ stack, children_loop_within stack (tag_contents t) current_node).

Definition parse_siblings_properties_within (stack : nat) (next_siblings : forest)
    (current_node : Node) : M Node :=
  call stack (λ stack, siblings_loop_within stack next_siblings current_node).


Definition parse_properties_within (stack : nat) (t : tag) (next_siblings : forest)
    (current_node : Node) : M Node :=
  parse_properties_call
    (λ stack, siblings_loop_within stack next_siblings)
    (λ stack, children_loop_within stack (tag_contents t))
    stack t current_node.

(** [parse_html] when [stack] frames are left to the walker. *)
Definition parse_html_within (stack : nat) (soup : forest) : M Node :=
  match soup_html soup with
  | None => raise (AssertionError assert_root)
  | Some root =>
      match find root (named "article") with
      | None => raise (AssertionError assert_article)
      | Some article =>
          let data : Node := [] in
          data <- parse_properties_within stack
                    (loc_tag article) (loc_next_siblings article) data ;;
          parse_sections article data
      end
  end.

(** How deeply the tags of a forest are nested. *)
Fixpoint height (f : forest) : nat :=
  match f with
  | fnil => 0
  | fcons (ETag t) rest => S (height (tag_contents t)) `max` height rest
  | fcons _ rest => height rest
  end.


(** ** Invariants of computations *)

(** All the tag identities of a forest. *)
Fixpoint forest_ids (f : forest) : list nat :=
  match f with
  | fnil => []
  | fcons (ETag t) r => tag_id t :: forest_ids (tag_contents t) ++ forest_ids r
  | fcons _ r => forest_ids r
  end.

Definition tag_ids (t : tag) : list nat := tag_id t :: forest_ids (tag_contents t).

(** [safe E ids m]: running [m] only adds identities to [hack], adds only
    identities of [ids], and raises only exceptions of [E]. *)
Definition safe (E : exn → Prop) (ids : list nat) {A} (m : M A) : Prop :=
  ∀ w, (∀ i, i ∈ hack w → i ∈ hack (m w).2)
     ∧ (∀ i, i ∈ hack (m w).2 → i ∈ hack w ∨ i ∈ ids)
     ∧ (∀ e, (m w).1 = Raise e → E e).

(** Two states of the process that agree on which identities of [ids] are
    in [hack]. *)
Definition agree (ids : list nat) (w1 w2 : world) : Prop :=
  ∀ i, i ∈ ids → (i ∈ hack w1 ↔ i ∈ hack w2).

(** [frame ids m]: what [m] returns or raises depends on [hack] only through
    the identities of [ids]. *)
Definition frame (ids : list nat) {A} (m : M A) : Prop :=
  ∀ w1 w2, agree ids w1 w2 → (m w1).1 = (m w2).1 ∧ agree ids (m w1).2 (m w2).2.

(** What the walker can raise. *)
Definition walker_exn (e : exn) : Prop :=
  e = AttributeError ∨ e = AssertionError assert_property_name.


Scheme elem_mut := Induction for elem Sort Prop
  with tag_mut := Induction for tag Sort Prop
  with forest_mut := Induction for forest Sort Prop.

(** ** Words of the specification *)

(** A word whose first character is alphanumeric. *)
Definition leading_alnum (word : string) : bool :=
  match word with
  | EmptyString => false
  | String c _ => PyStr.isalnum c
  end.

(** Camel case: the first word lower-cased, the others capitalized. *)
Definition camel_case (words : list string) : list string :=
  match words with
  | [] => []
  | first :: others => PyStr.lower first :: map PyStr.capitalize others
  end.

(** The first of the attributes [keys] whose value is true in Python's
    sense, in the order given. *)
Fixpoint first_attr (t : tag) (keys : list string) : option attr :=
  match keys with
  | [] => None
  | key :: others =>
      match truthy (tag_get t key) with
      | Some v => Some v
      | None => first_attr t others
      end
  end.

(** The property name a tag declares: a non-empty [itemprop] string. *)
Definition itemprop (t : tag) : option string :=
  match truthy (tag_get t "itemprop") with
  | Some (AStr property_name) => Some property_name
  | _ => None
  end.

(** How the value of a property tag is stored under its name: as it is, or,
    for a [repeat] tag, as the last element of a list. *)
Definition stored_as (t : tag) (value stored : value) : Prop :=
  if has_attr t "repeat" then ∃ earlier, stored = VList (earlier ++ [value])
  else stored = value.

(** The tags among the following siblings of a label tag, up to the next
    label tag. *)
Fixpoint label_group (next_siblings : forest) : list tag :=
  match next_siblings with
  | fnil => []
  | fcons (ETag sibling) rest =>
      if is_start_tag sibling then [] else sibling :: label_group rest
  | fcons _ rest => label_group rest
  end.

(** The line a [description-line] tag contributes. *)
Definition line_of (t : tag) : value := line_node t (get_text_strip t).

(** The lines that come before the first heading. *)
Fixpoint leading_lines (targets : list tag) : list value :=
  match targets with
  | [] => []
  | t :: rest => if named "heading" t then [] else line_of t :: leading_lines rest
  end.

(** One part per heading: its text, and the lines up to the next heading. *)
Fixpoint heading_parts (targets : list tag) : list part :=
  match targets with
  | [] => []
  | t :: rest =>
      if named "heading" t
      then Part (get_text_strip t) (leading_lines rest) :: heading_parts rest
      else heading_parts rest
  end.

(** The tags [parse_description] scans, in document order. *)
Definition description_targets (description : located) : list tag :=
  map loc_tag (find_all description is_target).

(** Ancestors deduplicated by identity, in first-seen order. *)
Fixpoint first_seen (tags : list tag) : list tag :=
  match tags with
  | [] => []
  | t :: rest => t :: filter (λ u, tag_id u ≠ tag_id t) (first_seen rest)
  end.

(** The nearest ancestor of a claim-text tag that carries the class [claim]. *)
Definition claim_of (text_tag : located) : option tag :=
  find_parent text_tag (λ t, has_class t "claim").

Definition claim_text_tags (claims_tag : located) : list located :=
  find_all claims_tag (λ t, has_class t "claim-text").

(** The entry of the claims list for one claim tag. *)
Definition claim_entry (claim : tag) : Node := dict (parse_claim claim).

(** The failures the specification lists: a missing root, a missing article,
    a missing nested tag in a section parser. *)
Definition listed_failure (e : exn) : Prop :=
  e = AssertionError assert_root
  ∨ e = AssertionError assert_article
  ∨ e = AssertionError assert_abstract
  ∨ e = AssertionError assert_description
  ∨ e = AssertionError assert_claims_tag.

(** The structural preconditions the code checks: the listed ones, a scoped
    section without [itemprop], a claim-text tag without a claim ancestor,
    and an [itemprop] value that is not a string. *)
Definition precondition_failure (e : exn) : Prop :=
  listed_failure e
  ∨ e = KeyError "itemprop"
  ∨ e = AssertionError assert_claim
  ∨ e = AssertionError assert_property_name
  ∨ e = AssertionError assert_section_name.

(** What a parse can raise at all. *)
Definition possible_failure (e : exn) : Prop :=
  e = AttributeError ∨ precondition_failure e.

(** The property name [section["itemprop"]] of a section, when it is a
    string. *)
Definition itemprop_of_section (section : located) : option string :=
  match tag_get (loc_tag section) "itemprop" with
  | Some (AStr property_name) => Some property_name
  | _ => None
  end.

(** ** Sample documents *)

Definition text (s : string) : elem := NavigableString s.

Definition element (id : nat) (name : string) (attrs : list (string * attr))
    (children : list elem) : elem :=
  ETag (Tag id name attrs (forest_of children)).

(** The same markup as another tree up to the identities of the tags. *)
Fixpoint erase_ids (f : forest) : forest :=
  match f with
  | fnil => fnil
  | fcons (ETag (Tag _ n a c)) r => fcons (ETag (Tag 0 n a (erase_ids c))) (erase_ids r)
  | fcons e r => fcons e (erase_ids r)
  end.

(** [<html><article><h2>Title</h2><span itemprop="num">42</span></article></html>],
    as a first [BeautifulSoup] call may build it. *)
Definition soup_first : forest := forest_of
  [element 1 "html" []
     [element 2 "article" []
        [element 3 "h2" [] [text "Title"];
         element 4 "span" [("itemprop", AStr "num")] [text "42"]]]].

(** The same document built again later in the process: the article object
    now has the identity that the span of the first tree had. *)
Definition soup_second : forest := forest_of
  [element 11 "html" []
     [element 4 "article" []
        [element 12 "h2" [] [text "Title"];
         element 13 "span" [("itemprop", AStr "num")] [text "42"]]]].

Definition span_num : tag :=
  Tag 4 "span" [("itemprop", AStr "num")] (forest_of [text "42"]).

(** [<h2>Description:</h2>] *)
Definition label_description : tag :=
  Tag 5 "h2" [] (forest_of [text "Description:"]).

(** [<dt>Priority date (earliest) first</dt>] *)
Definition label_priority : tag :=
  Tag 6 "dt" [] (forest_of [text "  Priority date (earliest) first "]).

(** An [a] tag with [itemprop="x"], an empty [content] attribute and
    [href="/patent/US1"]. *)
Definition link_empty_content : tag :=
  Tag 7 "a" [("itemprop", AStr "x"); ("content", AStr EmptyString); ("href", AStr "/patent/US1")]
    fnil.

(** [<h2 itemprop="title">Title</h2>] *)
Definition label_with_itemprop : tag :=
  Tag 8 "h2" [("itemprop", AStr "title")] (forest_of [text "Title"]).





(** A description with a line, a heading, a line, a heading and a line:
    [<div class="description" lang="EN"> <div class="description-line"
    num="0001">Intro</div> <heading>BACKGROUND</heading> ... </div>] *)
Definition line_intro : tag :=
  Tag 51 "div" [("class", AList ["description-line"]); ("num", AStr "0001")]
    (forest_of [text " Intro "]).
Definition heading_background : tag :=
  Tag 52 "heading" [] (forest_of [text "BACKGROUND"]).
Definition line_first : tag :=
  Tag 53 "div" [("class", AList ["description-line"]); ("num", AStr "0002")]
    (forest_of [text "First"]).
Definition heading_summary : tag :=
  Tag 54 "heading" [] (forest_of [text "SUMMARY"]).
Definition line_second : tag :=
  Tag 55 "div" [("class", AList ["description-line"])] (forest_of [text "Second"]).

Definition sample_description : located :=
  Loc (Tag 50 "div" [("class", AList ["description"]); ("lang", AStr "EN")]
         (forest_of [ETag line_intro; ETag heading_background; ETag line_first;
                     ETag heading_summary; ETag line_second]))
      [] fnil.

(** A claims tag with one claim that holds two claim-text fragments and a
    second claim with one:
    [<div class="claims"><div class="claim" num="1"><div class="claim-text">A
    device<div class="claim-text">with a part</div></div></div><div
    class="claim" num="2"><div class="claim-text">A method</div></div></div>] *)
Definition claim_one : tag :=
  Tag 61 "div" [("class", AList ["claim"]); ("num", AStr "1")]
    (forest_of
       [element 62 "div" [("class", AList ["claim-text"])]
          [text "A device "; element 63 "div" [("class", AList ["claim-text"])]
                               [text " with a part"]]]).

Definition claim_two : tag :=
  Tag 64 "div" [("class", AList ["claim"]); ("num", AStr "2")]
    (forest_of [element 65 "div" [("class", AList ["claim-text"])] [text "A method"]]).

Definition sample_claims : located :=
  Loc (Tag 60 "div" [("class", AList ["claims"])]
         (forest_of [ETag claim_one; ETag claim_two]))
      [] fnil.

(** A scoped section inside a scoped section:
    [<html><article><section itemprop="family" itemscope><section
    itemprop="abstract" itemscope><abstract>Sample</abstract></section>
    </section></article></html>] *)
Definition inner_section : tag :=
  Tag 43 "section" [("itemprop", AStr "abstract"); ("itemscope", AStr EmptyString)]
    (forest_of [element 44 "abstract" [] [text "Sample"]]).

Definition outer_section : tag :=
  Tag 42 "section" [("itemprop", AStr "family"); ("itemscope", AStr EmptyString)]
    (forest_of [ETag inner_section]).

Definition soup_nested : forest := forest_of
  [element 40 "html" [] [element 41 "article" [] [ETag outer_section]]].

Definition article_nested : located :=
  Loc (Tag 41 "article" [] (forest_of [ETag outer_section]))
      [Tag 40 "html" [] (forest_of [element 41 "article" [] [ETag outer_section]])]
      fnil.


(** A scalar property followed by a repeated one of the same name:
    [<html><article><span itemprop="x">a</span><span itemprop="x" repeat>b</span>
    </article></html>] *)
Definition soup_repeat_on_scalar : forest := forest_of
  [element 80 "html" []
     [element 81 "article" []
        [element 82 "span" [("itemprop", AStr "x")] [text "a"];
         element 83 "span" [("itemprop", AStr "x"); ("repeat", AStr EmptyString)] [text "b"]]]].

(** ** Further words for the properties of the module *)

(** The tags among the children of a tag, in order. *)
Fixpoint child_tags (f : forest) : list tag :=
  match f with
  | fnil => []
  | fcons (ETag t) rest => t :: child_tags rest
  | fcons _ rest => child_tags rest
  end.

(** The value of a property tag without [itemscope]: the first non-empty
    attribute among [content], [href], [src], else the stripped [.string],
    else [None]. *)
Definition scalar_value (t : tag) : value :=
  match first_attr t ["content"; "href"; "src"] with
  | Some v => attr_value v
  | None =>
      match dot_string t with
      | Some text => VStr (PyStr.strip text)
      | None => VNone
      end
  end.

(** A property tag of the plain kind: not a label, not a section, without
    [itemscope], declaring the property [name]. *)
Definition scalar_property (name : string) (t : tag) : Prop :=
  is_start_tag t = false ∧ named "section" t = false
  ∧ has_attr t "itemscope" = false ∧ itemprop t = Some name.

(** The last of the tags that declares the property [key]. *)
Definition last_declaring (key : string) (tags : list tag) : option tag :=
  last (filter (λ t, itemprop t = Some key) tags).

(** The tags that declare the property [key], in order. *)
Definition declaring (key : string) (tags : list tag) : list tag :=
  filter (λ t, itemprop t = Some key) tags.

(** The list a key holds before a [repeat] tag appends to it: empty when the
    key is absent, the list when it holds one. *)
Definition held_list (held : option value) : option (list value) :=
  match held with
  | None => Some []
  | Some (VList l) => Some l
  | Some _ => None
  end.

(** Every character of a string satisfies a test. *)
Fixpoint all_chars (p : ascii → bool) (s : string) : bool :=
  match s with
  | EmptyString => true
  | String c r => p c && all_chars p r
  end.

(** What the section parsers and the dispatcher raise. *)
Definition section_exn (e : exn) : Prop :=
  e = KeyError "itemprop"
  ∨ e = AssertionError assert_section_name
  ∨ e = AssertionError assert_abstract
  ∨ e = AssertionError assert_description
  ∨ e = AssertionError assert_claims_tag
  ∨ e = AssertionError assert_claim.

(** A wrapper without [itemprop] around a property:
    [<div class="box"><span itemprop="num">42</span></div>] *)
Definition wrapper_div : tag :=
  Tag 90 "div" [("class", AList ["box"])] (forest_of [ETag span_num]).

(** Three occurrences of a repeated property:
    [<div><span itemprop="inventor" repeat>Ann</span> <span itemprop="inventor"
    repeat>Bob</span><span itemprop="inventor" repeat>Cy</span></div>] *)
Definition inventor (id : nat) (who : string) : tag :=
  Tag id "span" [("itemprop", AStr "inventor"); ("repeat", AStr EmptyString)]
    (forest_of [text who]).

Definition repeat_parent : tag :=
  Tag 100 "div" []
    (forest_of [ETag (inventor 101 "Ann"); text " "; ETag (inventor 102 "Bob");
                ETag (inventor 103 "Cy")]).

(** A scalar property that occurs twice, with another one in between:
    [<div><span itemprop="title">Old</span><a itemprop="link" href="/p">x</a>
    <span itemprop="title">New</span></div>] *)
Definition title_span (id : nat) (what : string) : tag :=
  Tag id "span" [("itemprop", AStr "title")] (forest_of [text what]).

Definition link_tag : tag :=
  Tag 112 "a" [("itemprop", AStr "link"); ("href", AStr "/p")] (forest_of [text "x"]).

Definition scalar_parent : tag :=
  Tag 110 "div" []
    (forest_of [ETag (title_span 111 "Old"); ETag link_tag; ETag (title_span 113 "New")]).

(** A character that is not white space. *)
Definition nonspace (c : ascii) : bool := negb (PyStr.isspace c).

(** [str.isascii]: every code is below 128. *)
Definition ascii_char (c : ascii) : bool := (PyStr.code c <? 128)%nat.

Definition isascii (s : string) : bool := all_chars ascii_char s.

(** [<h2> Filing  Date: (expected)</h2>] *)
Definition label_filing : tag :=
  Tag 120 "h2" [] (forest_of [text " Filing  Date: (expected)"]).

(** A character that is not the space. *)
Definition not_blank (c : ascii) : bool := negb (Ascii.eqb c " ").

(** [<div class="description main" lang="EN">] *)
Definition description_two_classes : tag :=
  Tag 130 "div" [("class", AList ["description"; "main"]); ("lang", AStr "EN")] fnil.

(** The last of the sections that declares the property name [key]. *)
Definition last_section (key : string) (sections : list located) : option located :=
  last (filter (λ s, itemprop_of_section s = Some key) sections).

(** [<section itemscope itemprop="abstract"><abstract lang="EN" content="x"
    class="abstract">A <b>rotor</b>.</abstract></section>] *)
Definition abstract_tag : tag :=
  Tag 141 "abstract"
    [("lang", AStr "EN"); ("content", AStr "x"); ("class", AList ["abstract"])]
    (forest_of [text "A "; element 142 "b" [] [text "rotor"]; text "."]).

Definition abstract_section : located :=
  Loc (Tag 140 "section" [("itemscope", AStr EmptyString); ("itemprop", AStr "abstract")]
         (forest_of [ETag abstract_tag]))
      [] fnil.

(** The article of [soup_first]: a label followed by a property. *)
Definition article_first : tag :=
  Tag 2 "article" []
    (forest_of [element 3 "h2" [] [text "Title"];
                element 4 "span" [("itemprop", AStr "num")] [text "42"]]).

(** A label at the end of its parent, and one followed at once by another
    label: [<dt>Status</dt> text <dt>Events</dt><span itemprop="e">x</span>] *)
Definition label_status : tag := Tag 150 "dt" [] (forest_of [text "Status"]).

Definition status_siblings : forest := forest_of
  [text " pending "; element 151 "dt" [] [text "Events"];
   element 152 "span" [("itemprop", AStr "e")] [text "x"]].

(** All the tags of a forest, in document order. *)
Fixpoint forest_tags (f : forest) : list tag :=
  match f with
  | fnil => []
  | fcons (ETag t) rest => t :: forest_tags (tag_contents t) ++ forest_tags rest
  | fcons _ rest => forest_tags rest
  end.

(** What is left for the walker to raise when no tag is marked [repeat]. *)
Definition not_attribute_error (e : exn) : Prop := e ≠ AttributeError.

(** What a tag may make the walker raise: [AttributeError] if it is marked
    [repeat], the assertion on the property name if its [itemprop] is a
    list. *)
Definition tag_raises (E : exn → Prop) (t : tag) : Prop :=
  (has_attr t "repeat" = true → E AttributeError)
  ∧ (∀ l, truthy (tag_get t "itemprop") = Some (AList l) →
          E (AssertionError assert_property_name)).



(** [<html><article><h2>Title</h2><span itemprop="num">42</span><section
    itemscope itemprop="abstract"><abstract>Sample</abstract></section>
    </article></html>] *)
Definition soup_sample : forest := forest_of
  [element 160 "html" []
     [element 161 "article" []
        [element 162 "h2" [] [text "Title"];
         element 163 "span" [("itemprop", AStr "num")] [text "42"];
         element 164 "section"
           [("itemscope", AStr EmptyString); ("itemprop", AStr "abstract")]
           [element 165 "abstract" [] [text "Sample"]]]]].

(** [depth] nested [div] tags around one property tag; the identities count
    up from [id]. *)
Fixpoint nested_divs (depth id : nat) : elem :=
  match depth with
  | O => element id "span" [("itemprop", AStr "num")] [text "42"]
  | S depth => element id "div" [] [nested_divs depth (S id)]
  end.

Definition soup_nested_divs (depth : nat) : forest := forest_of
  [element 1 "html" [] [element 2 "article" [] [nested_divs depth 3]]].

(** * Properties *)

Section Safe.
Context (E : exn → Prop).

Lemma safe_ret {A} ids (a : A) : safe E ids (ret a).
Proof. intros w; cbn; naive_solver. Qed.

Lemma safe_raise {A} ids e : E e → safe E ids (raise (A:=A) e).
Proof. intros He w; cbn; split_and!; [done|auto|congruence]. Qed.

Lemma safe_bind {A B} ids (m : M A) (k : A → M B) :
  safe E ids m → (∀ a, safe E ids (k a)) → safe E ids (bind m k).
Proof.
  intros Hm Hk w. unfold bind.
  destruct (Hm w) as (Hm1 & Hm2 & Hm3).
  destruct (m w) as [[a|e] w1]; cbn in *.
  - destruct (Hk a w1) as (Hk1 & Hk2 & Hk3). split_and!; [auto| |auto].
    intros i Hi. destruct (Hk2 i Hi); auto.
  - split_and!; [exact Hm1|exact Hm2|].
    intros e' [= <-]. by apply Hm3.
Qed.

Lemma safe_weaken {A} ids ids' (m : M A) :
  (∀ i, i ∈ ids → i ∈ ids') → safe E ids m → safe E ids' m.
Proof.
  intros Hsub Hm w. destruct (Hm w) as (H1 & H2 & H3). split_and!; [done| |done].
  intros i Hi. destruct (H2 i Hi); auto.
Qed.

Lemma safe_warn ids msg : safe E ids (warn msg).
Proof. intros w; cbn; naive_solver. Qed.

Lemma safe_hack_mem ids i : safe E ids (hack_mem i).
Proof. intros w; cbn; naive_solver. Qed.

Lemma safe_hack_add ids i : i ∈ ids → safe E ids (hack_add i).
Proof.
  intros Hi w; cbn. split_and!; [set_solver| |done].
  intros j Hj. apply elem_of_union in Hj as [Hj|Hj]; [|auto].
  apply elem_of_singleton in Hj as ->. auto.
Qed.
End Safe.

(** Computations built from [ret], [warn] and [bind] alone. *)
Ltac safe_steps :=
  repeat first [apply safe_ret | apply safe_warn | apply safe_bind; [|intros ?] | done].

(** *** The label normalizer never raises *)

Lemma split_from_nonempty s : ∀ word,
  Forall (λ p, p ≠ EmptyString) (PyStr.split_from word s).
Proof.
  induction s as [|c r IH]; intros word; cbn.
  - destruct word; [constructor|]. by repeat constructor.
  - destruct (PyStr.isspace c); [|apply IH].
    destruct word; [apply IH|]. constructor; [done|apply IH].
Qed.

Lemma split_nonempty s : Forall (λ p, p ≠ EmptyString) (PyStr.split s).
Proof. apply split_from_nonempty. Qed.

Lemma parse_label_loop_returns words : ∀ i parts,
  Forall (λ p, p ≠ EmptyString) words →
  ∃ parts', ∀ w, parse_label_loop i words parts w = (Ok parts', w).
Proof.
  induction words as [|part rest IH]; intros i parts Hne; cbn.
  - by exists parts.
  - inversion_clear Hne as [|? ? Hp Hrest].
    destruct part as [|c tl]; [done|].
    destruct (negb (PyStr.isalnum c)); [by exists parts|].
    by apply IH.
Qed.

Lemma parse_label_returns t :
  ∃ label, ∀ w,
    parse_label t w = (Ok label, w)
    ∨ (dot_string t = None ∧ label = EmptyString
       ∧ parse_label t w = (Ok label, World (hack w) (warnings w ++ [LabelTagHasNoString]))).
Proof.
  unfold parse_label. destruct (dot_string t) as [raw|].
  - destruct (parse_label_loop_returns (PyStr.split (PyStr.strip raw)) 0 []
                (split_nonempty _)) as [parts Hparts].
    exists (PyStr.join_empty parts). intros w. left.
    unfold bind. by rewrite Hparts.
  - exists EmptyString. intros w. right. by split_and!.
Qed.

Lemma safe_parse_label E ids t : safe E ids (parse_label t).
Proof.
  destruct (parse_label_returns t) as [label Hl]. intros w.
  destruct (Hl w) as [->|(_ & _ & ->)]; cbn; naive_solver.
Qed.

(** *** The walker: what it adds to [hack] and what it raises *)

Section Walker.
Context (E : exn → Prop) (HE : ∀ e, walker_exn e → E e).

Lemma safe_property_value_with ids walk_children t :
  safe E ids (walk_children []) →
  safe E ids (property_value_with walk_children t).
Proof.
  intros Hwc. unfold property_value_with. repeat case_match; safe_steps.
Qed.

(** One call of the walker: besides being [safe], it always leaves the
    identity of its tag in [hack]. *)
Lemma walker_step ids walk_siblings walk_children t current_node :
  tag_id t ∈ ids →
  (∀ n, safe E ids (walk_siblings n)) →
  (∀ n, safe E ids (walk_children n)) →
  safe E ids (parse_properties_with walk_siblings walk_children t current_node)
  ∧ ∀ w, tag_id t ∈
           hack (parse_properties_with walk_siblings walk_children t current_node w).2.
Proof.
  intros Hid Hws Hwc. unfold parse_properties_with.
  match goal with |- context [bind (hack_add _) ?k] => set (K := k) end.
  assert (∀ u, safe E ids (K u)) as HK.
  { intros u. unfold K. cbn beta. clear u K.
    destruct (is_start_tag t).
    { apply safe_bind; [apply safe_parse_label|]. intros label.
      apply safe_bind; [apply Hws|]. intros ?. apply safe_ret. }
    destruct (truthy _) as [[property_name|?]|]; [| |apply Hwc].
    - destruct (named _ _); [apply safe_ret|].
      apply safe_bind; [by apply safe_property_value_with|]. intros value.
      repeat case_match; first [apply safe_ret | apply safe_raise, HE; by left].
    - apply safe_raise, HE. by right. }
  split.
  - apply safe_bind; [apply safe_hack_mem|]. intros [|]; [apply safe_ret|].
    apply safe_bind; [by apply safe_hack_add|]. done.
  - intros w. unfold bind at 1, hack_mem. case_bool_decide; [done|].
    unfold bind at 1, hack_add.
    destruct (HK () (World ({[tag_id t]} ∪ hack w) (warnings w))) as (Hgrow & _).
    apply Hgrow. cbn. set_solver.
Qed.

Lemma safe_parse_properties_with ids walk_siblings walk_children t current_node :
  tag_id t ∈ ids →
  (∀ n, safe E ids (walk_siblings n)) →
  (∀ n, safe E ids (walk_children n)) →
  safe E ids (parse_properties_with walk_siblings walk_children t current_node).
Proof. intros. by apply walker_step. Qed.

(** A tag that is not a label never starts the walk over its siblings. *)
Lemma parse_properties_with_siblings_unused ws ws' wc t n :
  is_start_tag t = false →
  parse_properties_with ws wc t n = parse_properties_with ws' wc t n.
Proof. intros Hs. unfold parse_properties_with. by rewrite Hs. Qed.

Lemma safe_loops f :
  (∀ n, safe E (forest_ids f) (children_loop f n))
  ∧ (∀ n, safe E (forest_ids f) (siblings_loop f n)).
Proof.
  induction f as [t IH| | |i nm a c IH| |e IHe r IHr]
    using forest_mut
    with (P := λ e, match e with
                    | ETag t =>
                        (∀ n, safe E (forest_ids (tag_contents t))
                                (children_loop (tag_contents t) n))
                    | _ => True
                    end)
         (P0 := λ t, ∀ n, safe E (forest_ids (tag_contents t))
                            (children_loop (tag_contents t) n));
    try done.
  - apply IH.
  - split; intros n; apply safe_ret.
  - destruct IHr as [IHc IHs].
    assert (∀ t ws n, e = ETag t → (∀ n, safe E (forest_ids r) (ws n)) →
              safe E (forest_ids (fcons e r))
                (parse_properties_with ws (children_loop (tag_contents t)) t n))
      as Hstep.
    { intros t ws n -> Hws. cbn.
      apply safe_parse_properties_with; [set_solver| |].
      - intros n'. eapply safe_weaken; [|apply Hws]. set_solver.
      - intros n'. eapply safe_weaken; [|apply IHe]. set_solver. }
    assert (∀ A (m : M A), safe E (forest_ids r) m → safe E (forest_ids (fcons e r)) m)
      as Hrest.
    { intros A m. apply safe_weaken. destruct e; cbn; set_solver. }
    split; intros n; destruct e as [t| |]; cbn [children_loop siblings_loop];
      try (apply Hrest; first [apply IHc | apply IHs]).
    + apply safe_bind; [by apply Hstep|]. intros n'. apply Hrest, IHc.
    + destruct (is_start_tag t); [apply safe_ret|].
      apply safe_bind; [by apply Hstep|]. intros n'. apply Hrest, IHs.
Qed.

Lemma safe_parse_properties t next_siblings current_node :
  safe E (tag_ids t ++ forest_ids next_siblings)
    (parse_properties t next_siblings current_node).
Proof.
  unfold parse_properties, parse_siblings_properties, parse_children_properties.
  apply safe_parse_properties_with; [set_solver| |].
  - intros n. eapply safe_weaken; [|apply safe_loops]. set_solver.
  - intros n. eapply safe_weaken; [|apply safe_loops]. set_solver.
Qed.

Lemma safe_parse_properties_nonlabel t next_siblings current_node :
  is_start_tag t = false →
  safe E (tag_ids t) (parse_properties t next_siblings current_node).
Proof.
  intros Hs. unfold parse_properties.
  rewrite (parse_properties_with_siblings_unused _ ret) by done.
  apply safe_parse_properties_with; [set_solver| |].
  - intros n. apply safe_ret.
  - intros n. eapply safe_weaken; [|apply safe_loops]. set_solver.
Qed.
End Walker.

Lemma parse_properties_marks t next_siblings current_node w :
  tag_id t ∈ hack (parse_properties t next_siblings current_node w).2.
Proof.
  unfold parse_properties, parse_siblings_properties, parse_children_properties.
  eapply (walker_step (λ _, True) (λ _ _, I) (tag_ids t ++ forest_ids next_siblings));
    [set_solver| |].
  - intros n. eapply safe_weaken; [|by apply safe_loops]. set_solver.
  - intros n. eapply safe_weaken; [|by apply safe_loops]. set_solver.
Qed.

Lemma parse_properties_visited t next_siblings current_node w :
  tag_id t ∈ hack w →
  parse_properties t next_siblings current_node w = (Ok current_node, w).
Proof.
  intros Hin. unfold parse_properties, parse_properties_with, bind, hack_mem.
  by rewrite bool_decide_eq_true_2.
Qed.

Lemma parse_properties_grows t next_siblings current_node w i :
  i ∈ hack w → i ∈ hack (parse_properties t next_siblings current_node w).2.
Proof.
  apply (safe_parse_properties (λ _, True) (λ _ _, I) t next_siblings current_node w).
Qed.

(** *** What a parse sees of [hack] *)

Section Frame.
Context (ids : list nat).

Lemma frame_ret {A} (a : A) : frame ids (ret a).
Proof. by intros w1 w2 Hw. Qed.

Lemma frame_raise {A} e : frame ids (raise (A:=A) e).
Proof. by intros w1 w2 Hw. Qed.

Lemma frame_warn msg : frame ids (warn msg).
Proof. by intros w1 w2 Hw. Qed.

Lemma frame_bind {A B} (m : M A) (k : A → M B) :
  frame ids m → (∀ a, frame ids (k a)) → frame ids (bind m k).
Proof.
  intros Hm Hk w1 w2 Hw. unfold bind. destruct (Hm w1 w2 Hw) as [Hr Hw'].
  destruct (m w1) as [[a1|e1] w1'], (m w2) as [[a2|e2] w2']; cbn in *; try done.
  - injection Hr as <-. by apply Hk.
  - by injection Hr as <-.
Qed.

Lemma frame_hack_mem i : i ∈ ids → frame ids (hack_mem i).
Proof.
  intros Hi w1 w2 Hw. split; [|done]. cbn. f_equal.
  apply bool_decide_ext. by apply Hw.
Qed.

Lemma frame_hack_add i : frame ids (hack_add i).
Proof.
  intros w1 w2 Hw. split; [done|]. intros j Hj. cbn.
  rewrite !elem_of_union. by rewrite (Hw j Hj).
Qed.

Lemma frame_parse_label t : frame ids (parse_label t).
Proof.
  intros w1 w2 Hw. destruct (parse_label_returns t) as [label Hlabel].
  by destruct (Hlabel w1) as [->|(_ & _ & ->)], (Hlabel w2) as [->|(_ & _ & ->)].
Qed.

Ltac frame_steps :=
  repeat first [ apply frame_ret | apply frame_warn | apply frame_raise
               | apply frame_bind; [|intros ?] | done ].

Lemma frame_property_value_with walk_children t :
  frame ids (walk_children []) → frame ids (property_value_with walk_children t).
Proof.
  intros Hwc. unfold property_value_with. repeat case_match; frame_steps.
Qed.

Lemma frame_parse_properties_with walk_siblings walk_children t current_node :
  tag_id t ∈ ids →
  (∀ n, frame ids (walk_siblings n)) →
  (∀ n, frame ids (walk_children n)) →
  frame ids (parse_properties_with walk_siblings walk_children t current_node).
Proof.
  intros Hid Hws Hwc. unfold parse_properties_with.
  apply frame_bind; [by apply frame_hack_mem|]. intros [|]; [apply frame_ret|].
  apply frame_bind; [apply frame_hack_add|]. intros _.
  destruct (is_start_tag t).
  { apply frame_bind; [apply frame_parse_label|]. intros label.
    apply frame_bind; [apply Hws|]. intros ?. apply frame_ret. }
  destruct (truthy _) as [[property_name|?]|]; [| |apply Hwc].
  - destruct (named _ _); [apply frame_ret|].
    apply frame_bind; [by apply frame_property_value_with|]. intros value.
    repeat case_match; first [apply frame_ret | apply frame_raise].
  - apply frame_raise.
Qed.

Lemma frame_loops f :
  (∀ i, i ∈ forest_ids f → i ∈ ids) →
  (∀ n, frame ids (children_loop f n)) ∧ (∀ n, frame ids (siblings_loop f n)).
Proof.
  induction f as [t IH| | |i nm a c IH| |e IHe r IHr]
    using forest_mut
    with (P := λ e, match e with
                    | ETag t =>
                        (∀ i, i ∈ forest_ids (tag_contents t) → i ∈ ids) →
                        ∀ n, frame ids (children_loop (tag_contents t) n)
                    | _ => True
                    end)
         (P0 := λ t, (∀ i, i ∈ forest_ids (tag_contents t) → i ∈ ids) →
                     ∀ n, frame ids (children_loop (tag_contents t) n)).
  - done.
  - done.
  - done.
  - intros Hsub n. by apply IH.
  - intros _. split; intros n; apply frame_ret.
  - intros Hsub.
    assert (∀ i, i ∈ forest_ids r → i ∈ ids) as Hr.
    { intros i Hi. apply Hsub. destruct e; cbn; set_solver. }
    destruct (IHr Hr) as [IHc IHs].
    destruct e as [t| |]; [|done..]. cbn [children_loop siblings_loop].
    assert (∀ n, frame ids (parse_properties_with (siblings_loop r)
                              (children_loop (tag_contents t)) t n)) as Hstep.
    { intros n. apply frame_parse_properties_with; [|done|].
      - apply Hsub. cbn. set_solver.
      - apply IHe. intros i Hi. apply Hsub. cbn. set_solver. }
    split; intros n.
    + apply frame_bind; [apply Hstep|]. apply IHc.
    + destruct (is_start_tag t); [apply frame_ret|].
      apply frame_bind; [apply Hstep|]. apply IHs.
Qed.

Lemma frame_find_claims_loop text_tags : ∀ seen_tags yielded,
  frame ids (find_claims_loop text_tags seen_tags yielded).
Proof.
  induction text_tags as [|text_tag rest IH]; intros seen yielded; cbn.
  - apply frame_ret.
  - destruct (find_parent _ _); [apply IH|apply frame_raise].
Qed.

Lemma frame_sections_loop sections : ∀ node, frame ids (sections_loop sections node).
Proof.
  induction sections as [|section rest IH]; intros node; cbn; [apply frame_ret|].
  destruct (tag_get _ _) as [[name|?]|]; [|apply frame_raise..].
  apply frame_bind; [|intros v; apply IH].
  unfold dispatch_section, parse_abstract, parse_description, parse_claims, find_claims.
  repeat case_match; frame_steps; apply frame_find_claims_loop.
Qed.
End Frame.

Lemma descendants_ids f : ∀ parents d,
  d ∈ descendants parents f →
  ∀ i, i ∈ tag_ids (loc_tag d) ++ forest_ids (loc_next_siblings d) → i ∈ forest_ids f.
Proof.
  induction f as [t IH| | |i nm a c IH| |e IHe r IHr]
    using forest_mut
    with (P := λ e, match e with
                    | ETag t =>
                        ∀ parents d,
                          d ∈ descendants parents (tag_contents t) →
                          ∀ i, i ∈ tag_ids (loc_tag d)
                                   ++ forest_ids (loc_next_siblings d) →
                               i ∈ forest_ids (tag_contents t)
                    | _ => True
                    end)
         (P0 := λ t, ∀ parents d,
                  d ∈ descendants parents (tag_contents t) →
                  ∀ i, i ∈ tag_ids (loc_tag d) ++ forest_ids (loc_next_siblings d) →
                       i ∈ forest_ids (tag_contents t));
    try done.
  - intros parents d Hd. by apply elem_of_nil in Hd.
  - intros parents d Hd i Hi. destruct e as [t| |]; cbn in *; [|eauto..].
    apply elem_of_cons in Hd as [->|Hd]; [cbn in Hi; unfold tag_ids in Hi; set_solver|].
    apply elem_of_cons. right. apply elem_of_app.
    apply elem_of_app in Hd as [Hd|Hd]; [left|right]; eauto.
Qed.

(** A parse of a tree none of whose identities is in [hack] returns what it
    returns in a process that has parsed nothing yet. *)
Lemma parse_html_unseen_ids soup w :
  (∀ i, i ∈ forest_ids soup → i ∉ hack w) →
  (parse_html soup w).1 = (parse_html soup fresh_world).1.
Proof.
  intros Hnew.
  assert (agree (forest_ids soup) w fresh_world) as Hagree.
  { intros i Hi. cbn. split; [by intros ?%Hnew|by intros ?%not_elem_of_empty]. }
  assert (frame (forest_ids soup) (parse_html soup)) as Hframe; [|by apply Hframe].
  unfold parse_html, soup_html, find, find_all, tag_descendants.
  destruct (head _) as [root|] eqn:Hroot; [|apply frame_raise].
  destruct (head (filter _ (descendants _ (tag_contents (loc_tag root)))))
    as [article|] eqn:Harticle; [|apply frame_raise].
  apply head_Some_elem_of, list_elem_of_filter in Hroot as [_ Hroot].
  apply head_Some_elem_of, list_elem_of_filter in Harticle as [_ Harticle].
  assert (∀ i, i ∈ tag_ids (loc_tag article) ++ forest_ids (loc_next_siblings article) →
               i ∈ forest_ids soup) as Hsub.
  { intros i Hi. apply (descendants_ids _ _ _ Hroot). apply elem_of_app. left.
    unfold tag_ids. apply elem_of_cons. right.
    by apply (descendants_ids _ _ _ Harticle). }
  apply frame_bind; [|intros data; apply frame_sections_loop].
  unfold parse_properties. apply frame_parse_properties_with.
  - apply Hsub. unfold tag_ids. set_solver.
  - intros n. apply frame_loops. intros i Hi. apply Hsub. set_solver.
  - intros n. apply frame_loops. intros i Hi. apply Hsub. unfold tag_ids. set_solver.
Qed.

(** *** C1: the visited set outlives the parse call *)

(** C1 (the code departs from it).  The set [hack] is module-level state:
    a second [parse_html] starts from the identities the first one left.
    On the same markup, a fresh call returns [{title: {num: "42"}}], and the
    call that follows a first parse returns [{}] as soon as the article's
    identity is one the first tree used.  ([parse_html_unseen_ids] is the
    other side: with no identity of the tree in [hack], the result is that
    of a fresh process.) *)
Theorem hack_outlives_parse_call :
  erase_ids soup_first = erase_ids soup_second
  ∧ (parse_html soup_first fresh_world).1 = Ok [("title", VDict [("num", VStr "42")])]
  ∧ (parse_html soup_second fresh_world).1 = Ok [("title", VDict [("num", VStr "42")])]
  ∧ (parse_html soup_second (parse_html soup_first fresh_world).2).1 = Ok [].
Proof. split_and!; vm_compute; reflexivity. Qed.

(** *** C2: a tag fed twice to the walker *)

(** C2.  Once [parse_properties] has been called on a tag (whatever that
    call did), calling it again on the same tag reference, at any later
    point of the walk, with any siblings and any accumulating node, returns
    at the visited check: the node is unchanged, nothing is logged and
    [hack] stays as it is. *)
Theorem parse_properties_second_feed t next_siblings node w r w1 w2 next_siblings' node' :
  parse_properties t next_siblings node w = (r, w1) →
  (∀ i, i ∈ hack w1 → i ∈ hack w2) →
  parse_properties t next_siblings' node' w2 = (Ok node', w2).
Proof.
  intros Hfirst Hlater. apply parse_properties_visited, Hlater.
  pose proof (parse_properties_marks t next_siblings node w) as Hm.
  by rewrite Hfirst in Hm.
Qed.

Lemma parse_properties_second_feed_witness :
  parse_properties span_num fnil [("other", VNone)] (World {[ 4 ]} [])
  = (Ok [("other", VNone)], World {[ 4 ]} []).
Proof.
  apply (parse_properties_second_feed span_num fnil [] fresh_world
           (Ok [("num", VStr "42")]) (World {[ 4 ]} [])).
  - vm_compute. reflexivity.
  - intros i Hi. exact Hi.
Defined.

(** *** C4: the label normalizer *)

Lemma parse_label_loop_spec words : ∀ i parts,
  Forall (λ p, p ≠ EmptyString) words →
  ∃ kept rest,
    words = kept ++ rest
    ∧ Forall (λ p, leading_alnum p = true) kept
    ∧ (∀ r, head rest = Some r → leading_alnum r = false)
    ∧ ∀ w, parse_label_loop i words parts w
           = (Ok (parts ++ match i with
                           | O => camel_case kept
                           | S _ => map PyStr.capitalize kept
                           end), w).
Proof.
  induction words as [|part words IH]; intros i parts Hne.
  - exists [], []. split_and!; [done|constructor|done|].
    intros w. cbn. by destruct i; rewrite app_nil_r.
  - inversion_clear Hne as [|? ? Hp Hrest].
    destruct part as [|c tl]; [done|]. cbn [parse_label_loop].
    destruct (PyStr.isalnum c) eqn:Hc; cbn [negb].
    + destruct (IH (S i) (parts ++ [match i with
                                    | O => PyStr.lower (String c tl)
                                    | S _ => PyStr.capitalize (String c tl)
                                    end]) Hrest)
        as (kept & rest & -> & Hkept & Hhead & Hrun).
      exists (String c tl :: kept), rest. split_and!; [done| |done|].
      * by constructor.
      * intros w. rewrite Hrun, <- app_assoc. by destruct i.
    + exists [], (String c tl :: words). split_and!; [done|constructor| |].
      * by intros r [= <-].
      * intros w. by destruct i; rewrite app_nil_r.
Qed.

(** C4 (as the code has it).  The label is built from the whitespace-
    separated words of the trimmed text: the words kept are those before the
    first word whose leading character is not alphanumeric; the first kept
    word is lower-cased, the others are capitalized, and they are joined
    with no separator.  Punctuation after the first character of a kept
    word stays in the label. *)
Theorem parse_label_camel_case t raw w :
  dot_string t = Some raw →
  ∃ kept rest,
    PyStr.split (PyStr.strip raw) = kept ++ rest
    ∧ Forall (λ p, leading_alnum p = true) kept
    ∧ (∀ r, head rest = Some r → leading_alnum r = false)
    ∧ parse_label t w = (Ok (PyStr.join_empty (camel_case kept)), w).
Proof.
  intros Hraw.
  destruct (parse_label_loop_spec (PyStr.split (PyStr.strip raw)) 0 []
              (split_nonempty _)) as (kept & rest & Hsplit & Hkept & Hhead & Hrun).
  exists kept, rest. split_and!; [done..|].
  unfold parse_label, bind. by rewrite Hraw, Hrun.
Qed.

Lemma parse_label_camel_case_witness :
  ∃ kept rest,
    PyStr.split (PyStr.strip "  Priority date (earliest) first ") = kept ++ rest
    ∧ Forall (λ p, leading_alnum p = true) kept
    ∧ (∀ r, head rest = Some r → leading_alnum r = false)
    ∧ parse_label label_priority fresh_world
      = (Ok (PyStr.join_empty (camel_case kept)), fresh_world).
Proof.
  apply (parse_label_camel_case label_priority
           "  Priority date (earliest) first " fresh_world).
  reflexivity.
Defined.

(** C4, the claim as written fails: the label of [<h2>Description:</h2>]
    keeps its colon. *)
Lemma parse_label_keeps_trailing_colon :
  dot_string label_description = Some "Description:"
  ∧ (parse_label label_description fresh_world).1 = Ok "description:".
Proof. split; vm_compute; reflexivity. Qed.

(** A word that starts with punctuation does end the label. *)
Example parse_label_stops_at_parenthesis :
  (parse_label label_priority fresh_world).1 = Ok "priorityDate".
Proof. vm_compute. reflexivity. Qed.

(** *** Dictionaries *)

Lemma eqb_eq a b : PyStr.eqb a b = true ↔ a = b.
Proof. unfold PyStr.eqb. apply bool_decide_eq_true. Qed.

Lemma dict_get_set_eq k v d : dict_get k (dict_set k v d) = Some v.
Proof.
  induction d as [|[k' v'] d IH]; cbn.
  - unfold PyStr.eqb. by rewrite bool_decide_eq_true_2.
  - destruct (PyStr.eqb k' k) eqn:Hk; cbn; by rewrite Hk.
Qed.

Lemma dict_get_set_ne k k' v d : k ≠ k' → dict_get k (dict_set k' v d) = dict_get k d.
Proof.
  intros Hne. induction d as [|[k0 v0] d IH]; cbn.
  - unfold PyStr.eqb. rewrite bool_decide_eq_false_2; [done|congruence].
  - destruct (PyStr.eqb k0 k') eqn:Hk; cbn; [|by rewrite IH].
    apply eqb_eq in Hk as ->.
    unfold PyStr.eqb. by rewrite bool_decide_eq_false_2 by congruence.
Qed.

Lemma dict_keys_set k k' v d :
  k ∈ dict_keys (dict_set k' v d) ↔ k = k' ∨ k ∈ dict_keys d.
Proof.
  unfold dict_keys. induction d as [|[k0 v0] d IH]; cbn.
  - set_solver.
  - destruct (PyStr.eqb k0 k') eqn:Hk; cbn.
    + apply eqb_eq in Hk as ->. set_solver.
    + rewrite !elem_of_cons, IH. naive_solver.
Qed.


(** *** C6: the property value extractor *)

(** C6 (as the code has it).  [property_value] takes the first case that
    applies: an [itemscope] attribute gives a fresh node filled from the
    children; otherwise the first of [content], [href], [src] whose value is
    not empty gives that value; otherwise [tag.string], trimmed; and when
    [tag.string] is not a string a warning is logged and [None] is returned,
    without raising. *)
Theorem property_value_priority t w :
  property_value t w =
    if has_attr t "itemscope" then
      (child_node <- parse_children_properties t [] ;; ret (VDict child_node)) w
    else
      match first_attr t ["content"; "href"; "src"] with
      | Some v => (Ok (attr_value v), w)
      | None =>
          match dot_string t with
          | Some text => (Ok (VStr (PyStr.strip text)), w)
          | None => (Ok VNone, World (hack w) (warnings w ++ [OmittingPropertyValue t]))
          end
      end.
Proof.
  unfold property_value, property_value_with. cbn [first_attr].
  destruct (has_attr t "itemscope"); [done|].
  destruct (truthy (tag_get t "content")); [done|].
  destruct (truthy (tag_get t "href")); [done|].
  destruct (truthy (tag_get t "src")); [done|].
  by destruct (dot_string t).
Qed.

(** C6, the claim as written fails: a [content] attribute that is present
    but empty is passed over, and [href] gives the value. *)
Lemma property_value_skips_empty_content :
  has_attr link_empty_content "itemscope" = false
  ∧ tag_get link_empty_content "content" = Some (AStr EmptyString)
  ∧ (property_value link_empty_content fresh_world).1 = Ok (VStr "/patent/US1").
Proof. split_and!; vm_compute; reflexivity. Qed.

(** *** The walker, as the source writes it *)

Lemma parse_properties_eq t next_siblings node :
  parse_properties t next_siblings node
  = parse_properties_with (siblings_loop next_siblings)
      (children_loop (tag_contents t)) t node.
Proof. reflexivity. Qed.

Lemma parse_children_properties_cons child rest node :
  children_loop (fcons (ETag child) rest) node
  = (node1 <- parse_properties child rest node ;; children_loop rest node1).
Proof. reflexivity. Qed.

Lemma parse_siblings_properties_cons sibling rest node :
  siblings_loop (fcons (ETag sibling) rest) node
  = if is_start_tag sibling then ret node
    else (node1 <- parse_properties sibling rest node ;; siblings_loop rest node1).
Proof. reflexivity. Qed.

(** *** The transitions of the walker *)

Lemma parse_properties_label t next_siblings node w :
  is_start_tag t = true →
  tag_id t ∉ hack w →
  parse_properties t next_siblings node w =
    (label <- parse_label t ;;
     child_node <- parse_siblings_properties next_siblings [] ;;
     ret (dict_set label (VDict child_node) node))
      (World ({[ tag_id t ]} ∪ hack w) (warnings w)).
Proof.
  intros Hstart Hnew. unfold parse_properties, parse_properties_with.
  unfold bind at 1, hack_mem. rewrite bool_decide_eq_false_2 by done.
  unfold bind at 1, hack_add. by rewrite Hstart.
Qed.

Lemma parse_properties_with_property ws wc t name node w node1 w1 :
  is_start_tag t = false →
  tag_id t ∉ hack w →
  itemprop t = Some name →
  parse_properties_with ws wc t node w = (Ok node1, w1) →
  (named "section" t = true ∧ node1 = node)
  ∨ (named "section" t = false
     ∧ ∃ value w_s stored,
         (property_value_with wc t w_s).1 = Ok value
         ∧ stored_as t value stored
         ∧ node1 = dict_set name stored node).
Proof.
  intros Hstart Hnew Hname. unfold parse_properties_with.
  unfold bind at 1, hack_mem. rewrite bool_decide_eq_false_2 by done.
  unfold bind at 1, hack_add. rewrite Hstart.
  unfold itemprop in Hname.
  destruct (truthy (tag_get t "itemprop")) as [[name'|?]|]; try done.
  injection Hname as ->.
  destruct (named "section" t); [intros [= <- _]; by left|].
  unfold bind.
  destruct (property_value_with wc t _) as [[value|e] w2] eqn:Hvalue; [|done].
  intros Hrun. right. split; [done|].
  exists value, (World ({[tag_id t]} ∪ hack w) (warnings w)).
  rewrite Hvalue. unfold stored_as.
  destruct (has_attr t "repeat"); [|injection Hrun as <- _; by eexists].
  destruct (dict_get name node) as [[| |l|]|]; try done; injection Hrun as <- _.
  - exists (VList (l ++ [value])). split_and!; [done|by exists l|done].
  - exists (VList [value]). split_and!; [done|by exists []|done].
Qed.

(** *** C7: the node of a label group *)





(** *** C10: a label tag that carries [itemprop] *)

(** C10 (as the code has it).  An unvisited tag named [dt] or [h2] takes
    the label-start transition whatever its attributes are: the result is
    the same for any attribute dictionary; when the call returns, the node
    is the given one with the normalized label set to the group's node, and
    every other key is as before.  The [itemprop] name is therefore a key of
    the result only if it is the normalized label itself or was a key
    already. *)
Theorem label_tag_never_a_property i name attrs contents next_siblings node w :
  is_start_tag (Tag i name attrs contents) = true →
  i ∉ hack w →
  (∀ attrs',
     parse_properties (Tag i name attrs' contents) next_siblings node w
     = parse_properties (Tag i name attrs contents) next_siblings node w)
  ∧ ∃ label,
      (∀ w0, (parse_label (Tag i name attrs contents) w0).1 = Ok label)
      ∧ ∀ node' w',
          parse_properties (Tag i name attrs contents) next_siblings node w
          = (Ok node', w') →
          (∃ child_node, node' = dict_set label (VDict child_node) node)
          ∧ ∀ key, key ≠ label → dict_get key node' = dict_get key node.
Proof.
  intros Hstart Hnew. split.
  - intros attrs'. by rewrite !parse_properties_label.
  - destruct (parse_label_returns (Tag i name attrs contents)) as [label Hlabel].
    exists label. split.
    { intros w0. by destruct (Hlabel w0) as [->|(_ & _ & ->)]. }
    intros node' w'. rewrite parse_properties_label by done.
    unfold bind at 1.
    match goal with |- context [parse_label _ ?w1] =>
      assert (∃ w2, parse_label (Tag i name attrs contents) w1 = (Ok label, w2))
        as [w2 ->] by (destruct (Hlabel w1) as [->|(_ & _ & ->)]; eauto)
    end.
    unfold bind.
    destruct (parse_siblings_properties next_siblings [] w2) as [[child|?] w3]; [|done].
    intros [= <- <-]. split; [by exists child|].
    intros key Hkey. by apply dict_get_set_ne.
Qed.

Lemma label_tag_never_a_property_witness :
  (∀ attrs',
     parse_properties (Tag 8 "h2" attrs' (forest_of [text "Title"])) fnil [] fresh_world
     = parse_properties label_with_itemprop fnil [] fresh_world)
  ∧ ∃ label,
      (∀ w0, (parse_label label_with_itemprop w0).1 = Ok label)
      ∧ ∀ node' w',
          parse_properties label_with_itemprop fnil [] fresh_world = (Ok node', w') →
          (∃ child_node, node' = dict_set label (VDict child_node) [])
          ∧ ∀ key, key ≠ label → dict_get key node' = dict_get key [].
Proof.
  apply (label_tag_never_a_property 8 "h2" [("itemprop", AStr "title")]
           (forest_of [text "Title"]) fnil [] fresh_world).
  - reflexivity.
  - cbn [fresh_world hack]. apply not_elem_of_empty.
Defined.

(** C10, the claim as written fails: the [itemprop] name of
    [<h2 itemprop="title">Title</h2>] is a key of the node after the walk,
    because it is also the normalized label. *)
Lemma label_itemprop_name_is_a_key :
  is_start_tag label_with_itemprop = true
  ∧ itemprop label_with_itemprop = Some "title"
  ∧ dict_get "title" [] = None
  ∧ ∃ node', (parse_properties label_with_itemprop fnil [] fresh_world).1 = Ok node'
             ∧ dict_get "title" node' = Some (VDict []).
Proof.
  split_and!; [reflexivity..|].
  exists [("title", VDict [])]. split; vm_compute; reflexivity.
Qed.

(** *** C9: the parts of a description *)

Lemma parts_loop_spec targets : ∀ parts current_part,
  parts_loop targets parts current_part
  = parts ++ Part (heading current_part) (lines current_part ++ leading_lines targets)
             :: heading_parts targets.
Proof.
  induction targets as [|t rest IH]; intros parts [h ls]; cbn.
  - by rewrite app_nil_r.
  - destruct (named "heading" t); rewrite IH; cbn.
    + by rewrite app_nil_r, <- app_assoc.
    + by rewrite <- app_assoc.
Qed.

Lemma leading_lines_no_heading ls :
  Forall (λ t, named "heading" t = false) ls → leading_lines ls = map line_of ls.
Proof. induction 1 as [|t ls Ht _ IH]; cbn; [done|]. by rewrite Ht, IH. Qed.

Lemma heading_parts_no_heading ls :
  Forall (λ t, named "heading" t = false) ls → heading_parts ls = [].
Proof. induction 1 as [|t ls Ht _ IH]; cbn; [done|]. by rewrite Ht. Qed.

Lemma leading_lines_app ls rest :
  Forall (λ t, named "heading" t = false) ls →
  leading_lines (ls ++ rest) = map line_of ls ++ leading_lines rest.
Proof. induction 1 as [|t ls Ht _ IH]; cbn; [done|]. by rewrite Ht, IH. Qed.

Lemma heading_parts_app ls rest :
  Forall (λ t, named "heading" t = false) ls →
  heading_parts (ls ++ rest) = heading_parts rest.
Proof. induction 1 as [|t ls Ht _ IH]; cbn; [done|]. by rewrite Ht. Qed.

Lemma heading_parts_length targets :
  List.length (heading_parts targets)
  = List.length (filter (λ t, named "heading" t = true) targets).
Proof.
  induction targets as [|t rest IH]; [done|].
  rewrite filter_cons. cbn [heading_parts].
  destruct (named "heading" t) eqn:Ht.
  - rewrite decide_True by done. cbn. by rewrite IH.
  - by rewrite decide_False by done.
Qed.

(** C9.  The parts of a description are an initial part whose heading is
    the empty string, holding the lines before the first heading, followed by
    one part per heading, titled with the heading's text and holding the
    lines up to the next heading; the last open part is always in the list.
    So there is one part more than there are headings; with no heading there
    is exactly one part, holding all the lines; with two headings and lines
    before, between and after them there are three parts, each with its own
    lines. *)
Theorem description_parts_grouping description :
  let targets := description_targets description in
  description_parts description
  = Part EmptyString (leading_lines targets) :: heading_parts targets
  ∧ List.length (description_parts description)
    = S (List.length (filter (λ t, named "heading" t = true) targets))
  ∧ (Forall (λ t, named "heading" t = false) targets →
     description_parts description = [Part EmptyString (map line_of targets)])
  ∧ (∀ before h1 between h2 after,
       targets = before ++ [h1] ++ between ++ [h2] ++ after →
       Forall (λ t, named "heading" t = false) (before ++ between ++ after) →
       named "heading" h1 = true → named "heading" h2 = true →
       description_parts description
       = [Part EmptyString (map line_of before);
          Part (get_text_strip h1) (map line_of between);
          Part (get_text_strip h2) (map line_of after)])
  ∧ ∀ section w,
      find section (class_matches "description") = Some description →
      parse_description section w
      = (Ok (attrs_except_class (loc_tag description)
               ++ [("parts", VList (map part_node (description_parts description)))]),
         w).
Proof.
  intros targets.
  assert (description_parts description
          = Part EmptyString (leading_lines targets) :: heading_parts targets) as Hparts.
  { unfold description_parts. fold (description_targets description). fold targets.
    by rewrite parts_loop_spec. }
  split_and!.
  - done.
  - rewrite Hparts. cbn. by rewrite heading_parts_length.
  - intros Hnone. rewrite Hparts.
    by rewrite leading_lines_no_heading, heading_parts_no_heading.
  - intros before h1 between h2 after Htargets Hlines Hh1 Hh2.
    apply Forall_app in Hlines as [Hbefore Hlines].
    apply Forall_app in Hlines as [Hbetween Hafter].
    rewrite Hparts, Htargets.
    rewrite leading_lines_app, heading_parts_app by done. cbn. rewrite Hh1.
    rewrite leading_lines_app, heading_parts_app by done. cbn. rewrite Hh2.
    rewrite leading_lines_no_heading, heading_parts_no_heading by done.
    by rewrite !app_nil_r.
  - intros section w Hfind. unfold parse_description. by rewrite Hfind.
Qed.

Lemma description_parts_grouping_witness :
  description_parts sample_description
  = [Part EmptyString (map line_of [line_intro]);
     Part (get_text_strip heading_background) (map line_of [line_first]);
     Part (get_text_strip heading_summary) (map line_of [line_second])].
Proof.
  destruct (description_parts_grouping sample_description) as (_ & _ & _ & Htwo & _).
  apply (Htwo [line_intro] heading_background [line_first] heading_summary [line_second]).
  - vm_compute. reflexivity.
  - repeat constructor.
  - reflexivity.
  - reflexivity.
Defined.

Example description_parts_sample :
  map part_node (description_parts sample_description)
  = [VDict [("heading", VStr EmptyString);
            ("lines", VList [VDict [("num", VStr "0001"); ("text", VStr "Intro")]])];
     VDict [("heading", VStr "BACKGROUND");
            ("lines", VList [VDict [("num", VStr "0002"); ("text", VStr "First")]])];
     VDict [("heading", VStr "SUMMARY");
            ("lines", VList [VDict [("num", VNone); ("text", VStr "Second")]])]].
Proof. vm_compute. reflexivity. Qed.

(** *** C8: the claims list *)

Lemma find_claims_loop_spec text_tags : ∀ ancestors seen_tags yielded w,
  map claim_of text_tags = map Some ancestors →
  find_claims_loop text_tags seen_tags yielded w
  = (Ok (yielded ++ filter (λ u, tag_id u ∉ seen_tags) (first_seen ancestors)), w).
Proof.
  induction text_tags as [|text_tag rest IH]; intros ancestors seen yielded w Hres.
  - destruct ancestors; [|done]. cbn. by rewrite app_nil_r.
  - destruct ancestors as [|a ancestors]; [done|]. injection Hres as Ha Hrest.
    cbn [find_claims_loop first_seen]. unfold claim_of in Ha. rewrite Ha.
    rewrite (IH ancestors) by done. f_equal. f_equal.
    rewrite filter_cons, list_filter_filter.
    rewrite (list_filter_iff (λ u, tag_id u ∉ ({[tag_id a]} ∪ seen))
               (λ u, (tag_id u ∉ seen) ∧ (tag_id u ≠ tag_id a))) by set_solver.
    case_bool_decide; [by rewrite decide_False by auto|].
    by rewrite decide_True, <- app_assoc by done.
Qed.

Lemma first_seen_subseteq tags c : c ∈ first_seen tags → c ∈ tags.
Proof.
  induction tags as [|t rest IH]; cbn; [done|].
  rewrite !elem_of_cons, list_elem_of_filter. naive_solver.
Qed.

Lemma first_seen_covers tags a :
  a ∈ tags → ∃ c, c ∈ first_seen tags ∧ tag_id c = tag_id a.
Proof.
  induction tags as [|t rest IH]; cbn; [by intros ?%elem_of_nil|].
  intros [->|Hin]%elem_of_cons; [exists t; set_solver|].
  destruct (IH Hin) as (c & Hc & Hid).
  destruct (decide (tag_id c = tag_id t)) as [Heq|Hne].
  - exists t. split; [set_solver|congruence].
  - exists c. split; [|done]. apply elem_of_cons. right.
    by apply list_elem_of_filter.
Qed.

Lemma first_seen_sublist tags : sublist (first_seen tags) tags.
Proof.
  induction tags as [|t rest IH]; cbn; [done|].
  apply sublist_skip. etrans; [apply sublist_filter|done].
Qed.

Lemma first_seen_NoDup tags : NoDup (map tag_id (first_seen tags)).
Proof.
  induction tags as [|t rest IH]; cbn; [constructor|].
  assert (∀ P `{!∀ u : tag, Decision (P u)} l,
            NoDup (map tag_id l) → NoDup (map tag_id (filter P l))) as Hfilter.
  { intros P ? l. induction l as [|u l IHl]; [done|]. rewrite filter_cons. cbn.
    intros [Hu Hl]%NoDup_cons. destruct (decide (P u)); [|by apply IHl]. cbn.
    apply NoDup_cons. split; [|by apply IHl]. intros Hin. apply Hu.
    apply list_elem_of_In, in_map_iff in Hin as (u' & Hid & Hu').
    apply list_elem_of_In, list_elem_of_filter in Hu' as [_ Hu'].
    apply list_elem_of_In, in_map_iff. exists u'. split; [done|].
    by apply list_elem_of_In. }
  apply NoDup_cons. split; [|by apply Hfilter].
  intros Hin. apply list_elem_of_In, in_map_iff in Hin as (u & Hid & Hu).
  by apply list_elem_of_In, list_elem_of_filter in Hu as [Hne _].
Qed.

Lemma dict_snoc fields k v : dict (fields ++ [(k, v)]) = dict_set k v (dict fields).
Proof. unfold dict. by rewrite fold_left_app. Qed.

Lemma dict_get_None k d : dict_get k d = None ↔ k ∉ dict_keys d.
Proof.
  unfold dict_keys. induction d as [|[k' v'] d IH]; cbn; [set_solver|].
  rewrite not_elem_of_cons, <- IH.
  destruct (PyStr.eqb k' k) eqn:Hk.
  - apply eqb_eq in Hk. naive_solver.
  - assert (k' ≠ k) by (intros ->; unfold PyStr.eqb in Hk;
                         by rewrite bool_decide_eq_true_2 in Hk).
    naive_solver.
Qed.

Lemma dict_keys_fold fields : ∀ d key,
  key ∈ dict_keys (fold_left (λ d kv, dict_set kv.1 kv.2 d) fields d)
  ↔ key ∈ dict_keys d ∨ key ∈ map fst fields.
Proof.
  induction fields as [|[k v] fields IH]; intros d key; cbn; [set_solver|].
  rewrite IH, dict_keys_set, elem_of_cons. naive_solver.
Qed.

Lemma dict_set_fresh k v d : k ∉ dict_keys d → dict_set k v d = d ++ [(k, v)].
Proof.
  unfold dict_keys. induction d as [|[k' v'] d IH]; cbn; [done|].
  intros [Hne Hd]%not_elem_of_cons.
  unfold PyStr.eqb at 1. rewrite bool_decide_eq_false_2 by congruence.
  by rewrite IH.
Qed.

Lemma dict_fold_NoDup fields : ∀ d,
  NoDup (dict_keys (d ++ fields)) →
  fold_left (λ d kv, dict_set kv.1 kv.2 d) fields d = d ++ fields.
Proof.
  induction fields as [|[k v] fields IH]; intros d Hnd; cbn.
  - by rewrite app_nil_r.
  - rewrite dict_set_fresh.
    + rewrite IH; rewrite <- app_assoc; done.
    + unfold dict_keys in *. rewrite map_app in Hnd.
      apply NoDup_app in Hnd as (_ & Hdisj & _).
      intros Hin. apply (Hdisj k Hin). cbn. set_solver.
Qed.

Lemma dict_NoDup fields : NoDup (dict_keys fields) → dict fields = fields.
Proof. intros Hnd. unfold dict. by rewrite dict_fold_NoDup. Qed.

Lemma dict_get_attrs attrs key :
  key ≠ "class" →
  dict_get key (filter (λ kv : Field, kv.1 ≠ "class")
                  (map (λ kv, (kv.1, attr_value kv.2)) attrs))
  = option_map attr_value (attrs_get key attrs).
Proof.
  intros Hkey. induction attrs as [|[k v] attrs IH]; [done|].
  cbn [map attrs_get]. rewrite filter_cons. cbn [fst snd].
  destruct (PyStr.eqb k key) eqn:Hk.
  - apply eqb_eq in Hk as ->. rewrite decide_True by done. cbn.
    unfold PyStr.eqb. by rewrite bool_decide_eq_true_2.
  - destruct (decide (k ≠ "class")); [|done]. cbn. by rewrite Hk.
Qed.

Lemma attrs_except_class_keys t key :
  key ∈ map fst (attrs_except_class t) ↔ key ≠ "class" ∧ key ∈ map fst (tag_attrs t).
Proof.
  unfold attrs_except_class, attrs_items.
  induction (tag_attrs t) as [|[k v] attrs IH]; cbn [map]; [set_solver|].
  rewrite filter_cons. cbn [fst snd].
  destruct (decide (k ≠ "class")); cbn [map fst]; rewrite ?elem_of_cons, IH.
  - naive_solver.
  - assert (k = "class") by (by destruct (decide (k = "class"))). naive_solver.
Qed.

Lemma attrs_except_class_NoDup t :
  NoDup (map fst (tag_attrs t)) → NoDup (map fst (attrs_except_class t)).
Proof.
  unfold attrs_except_class, attrs_items.
  induction (tag_attrs t) as [|[k v] attrs IH]; cbn [map]; [done|].
  intros [Hk Hnd]%NoDup_cons. rewrite filter_cons. cbn [fst snd].
  destruct (decide (k ≠ "class")); [|by apply IH]. cbn [map fst].
  apply NoDup_cons. split; [|by apply IH].
  intros Hin. apply Hk.
  apply (attrs_except_class_keys (Tag 0 EmptyString attrs fnil)) in Hin. apply Hin.
Qed.

Lemma filter_unseen_empty (seen : gset nat) (tags : list tag) :
  seen = ∅ → filter (λ u, tag_id u ∉ seen) tags = tags.
Proof.
  intros ->. induction tags as [|t rest IH]; [done|].
  rewrite filter_cons_True by set_solver. by rewrite IH.
Qed.

(** C8.  When every claim-text tag below the claims tag has an ancestor of
    class [claim], [find_claims] returns those ancestors deduplicated by
    identity in first-seen order: one claim per identity, whatever the
    number of claim-text fragments below it, each ancestor represented, in
    the order of the ancestors.  The claims list holds one entry per claim
    returned; an entry has the claim's attributes except [class], and under
    [text] the claim's whole stripped text. *)
Theorem claims_one_entry_per_ancestor claims_tag ancestors w :
  map claim_of (claim_text_tags claims_tag) = map Some ancestors →
  let claims := first_seen ancestors in
  find_claims claims_tag w = (Ok claims, w)
  ∧ NoDup (map tag_id claims)
  ∧ (∀ a, a ∈ ancestors → ∃ c, c ∈ claims ∧ tag_id c = tag_id a)
  ∧ (∀ c, c ∈ claims → c ∈ ancestors)
  ∧ sublist claims ancestors
  ∧ (∀ section,
       find section (λ t, has_class t "claims") = Some claims_tag →
       parse_claims section w
       = (Ok (attrs_except_class (loc_tag claims_tag)
                ++ [("claims", VList (map (λ c, VDict (claim_entry c)) claims))]), w))
  ∧ ∀ c,
      dict_get "text" (claim_entry c) = Some (VStr (get_text_strip c))
      ∧ dict_get "class" (claim_entry c) = None
      ∧ (∀ key, key ∈ dict_keys (claim_entry c) ↔
                key = "text" ∨ (key ≠ "class" ∧ key ∈ map fst (tag_attrs c)))
      ∧ (NoDup (map fst (tag_attrs c)) →
         ∀ key, key ≠ "text" → key ≠ "class" →
                dict_get key (claim_entry c) = option_map attr_value (tag_get c key)).
Proof.
  intros Hres claims.
  assert (find_claims claims_tag w = (Ok claims, w)) as Hfind.
  { unfold find_claims. fold (claim_text_tags claims_tag).
    rewrite (find_claims_loop_spec _ ancestors) by done. cbn [app].
    by rewrite (filter_unseen_empty ∅). }
  assert (∀ c key, key ∈ dict_keys (claim_entry c) ↔
                   key = "text" ∨ (key ≠ "class" ∧ key ∈ map fst (tag_attrs c)))
    as Hkeys.
  { intros c key. unfold claim_entry, parse_claim, dict.
    rewrite dict_keys_fold, map_app, elem_of_app, attrs_except_class_keys. cbn.
    set_solver. }
  split_and!.
  - done.
  - apply first_seen_NoDup.
  - apply first_seen_covers.
  - apply first_seen_subseteq.
  - apply first_seen_sublist.
  - intros section Hsec. unfold parse_claims, bind. by rewrite Hsec, Hfind.
  - intros c. split_and!.
    + unfold claim_entry, parse_claim. rewrite dict_snoc. apply dict_get_set_eq.
    + apply dict_get_None. rewrite Hkeys. naive_solver.
    + apply Hkeys.
    + intros Hnd key Htext Hclass. unfold claim_entry, parse_claim.
      rewrite dict_snoc, dict_get_set_ne by done.
      rewrite dict_NoDup by by apply attrs_except_class_NoDup.
      by apply dict_get_attrs.
Qed.

Lemma claims_one_entry_per_ancestor_witness :
  find_claims sample_claims fresh_world = (Ok [claim_one; claim_two], fresh_world).
Proof.
  apply (claims_one_entry_per_ancestor sample_claims
           [claim_one; claim_one; claim_two] fresh_world).
  vm_compute. reflexivity.
Defined.

Example parse_claims_sample :
  (parse_claims (Loc (Tag 59 "section" [] (fcons (ETag (loc_tag sample_claims)) fnil))
                   [] fnil) fresh_world).1
  = Ok [("claims",
         VList [VDict [("num", VStr "1"); ("text", VStr "A devicewith a part")];
                VDict [("num", VStr "2"); ("text", VStr "A method")]])].
Proof. vm_compute. reflexivity. Qed.

(** *** C5: the section dispatcher *)

Lemma descendants_trans f : ∀ parents s inner,
  s ∈ descendants parents f → inner ∈ tag_descendants s →
  inner ∈ descendants parents f.
Proof.
  induction f as [t IH| | |i nm a c IH| |e IHe r IHr]
    using forest_mut
    with (P := λ e, match e with
                    | ETag t =>
                        ∀ parents s inner,
                          s ∈ descendants parents (tag_contents t) →
                          inner ∈ tag_descendants s →
                          inner ∈ descendants parents (tag_contents t)
                    | _ => True
                    end)
         (P0 := λ t, ∀ parents s inner,
                  s ∈ descendants parents (tag_contents t) →
                  inner ∈ tag_descendants s →
                  inner ∈ descendants parents (tag_contents t));
    try done.
  - intros parents s inner Hs. by apply elem_of_nil in Hs.
  - intros parents s inner Hs Hinner. destruct e as [t| |]; cbn in *; [|eauto..].
    apply elem_of_cons in Hs as [->|Hs]; [set_solver|].
    apply elem_of_app in Hs as [Hs|Hs].
    + apply elem_of_cons. right. apply elem_of_app. left. eauto.
    + apply elem_of_cons. right. apply elem_of_app. right. eauto.
Qed.

Lemma sections_loop_keys sections : ∀ node w node' w',
  sections_loop sections node w = (Ok node', w') →
  (∀ s, s ∈ sections → is_Some (itemprop_of_section s))
  ∧ (∀ key, key ∈ dict_keys node' ↔
            key ∈ dict_keys node
            ∨ ∃ s, s ∈ sections ∧ itemprop_of_section s = Some key)
  ∧ ∀ key v,
      dict_get key node' = Some v →
      dict_get key node = Some v
      ∨ ∃ s w_s, s ∈ sections ∧ itemprop_of_section s = Some key
                 ∧ (dispatch_section key s w_s).1 = Ok v.
Proof.
  induction sections as [|s rest IH]; intros node w node' w'; cbn.
  { intros [= <- <-]. split_and!; [set_solver..|auto]. }
  unfold itemprop_of_section in *.
  destruct (tag_get (loc_tag s) "itemprop") as [[name|?]|] eqn:Hname; try done.
  unfold bind. destruct (dispatch_section name s w) as [[v|?] w1] eqn:Hv; [|done].
  intros Hrun. apply IH in Hrun as (Hall & Hkeys & Hvalues). split_and!.
  - intros s' [->|Hs']%elem_of_cons; [by rewrite Hname|by apply Hall].
  - intros key. rewrite Hkeys, dict_keys_set. split.
    + intros [[->|?]|(s' & Hs' & Hk)]; [|by left|].
      * right. exists s. rewrite Hname. set_solver.
      * right. exists s'. set_solver.
    + intros [?|(s' & [->|Hs']%elem_of_cons & Hk)]; [by left; right| |by right; eauto].
      rewrite Hname in Hk. injection Hk as ->. by left; left.
  - intros key v' Hget. destruct (Hvalues key v' Hget) as [Hget1|(s' & w_s & Hs' & Hk)].
    + destruct (decide (key = name)) as [->|Hne].
      * rewrite dict_get_set_eq in Hget1. injection Hget1 as <-.
        right. exists s, w. rewrite Hname, Hv. split_and!; [set_solver|done..].
      * rewrite dict_get_set_ne in Hget1 by done. by left.
    + right. exists s', w_s. split; [set_solver|done].
Qed.

(** C5 (as the code has it).  [parse_sections] dispatches every scoped
    section below the article, at any depth: the scoped sections found below
    a descendant of the article are found below the article too, and when
    [parse_sections] returns, each scoped section below the article declares
    a property name that is a key of the node; the keys of the node are the
    keys it had and these names, and a key that changed holds what the
    dispatch of one of the sections of that name returned. *)
Theorem parse_sections_all_depths article node w node' w' :
  parse_sections article node w = (Ok node', w') →
  (∀ s inner, s ∈ tag_descendants article → inner ∈ tag_descendants s →
              inner ∈ tag_descendants article)
  ∧ (∀ s, s ∈ tag_descendants article → is_section (loc_tag s) = true →
          ∃ name, itemprop_of_section s = Some name ∧ name ∈ dict_keys node')
  ∧ (∀ key, key ∈ dict_keys node' ↔
            key ∈ dict_keys node
            ∨ ∃ s, s ∈ tag_descendants article ∧ is_section (loc_tag s) = true
                   ∧ itemprop_of_section s = Some key)
  ∧ ∀ key v,
      dict_get key node' = Some v →
      dict_get key node = Some v
      ∨ ∃ s w_s, s ∈ tag_descendants article ∧ is_section (loc_tag s) = true
                 ∧ itemprop_of_section s = Some key
                 ∧ (dispatch_section key s w_s).1 = Ok v.
Proof.
  intros Hrun. unfold parse_sections in Hrun.
  apply sections_loop_keys in Hrun as (Hall & Hkeys & Hvalues). split_and!.
  - intros s inner. apply descendants_trans.
  - intros s Hs Hsec.
    destruct (Hall s) as [name Hname]; [by apply list_elem_of_filter|].
    exists name. split; [done|]. apply Hkeys. right. exists s.
    split; [by apply list_elem_of_filter|done].
  - intros key. rewrite Hkeys. unfold find_all.
    setoid_rewrite list_elem_of_filter. naive_solver.
  - intros key v Hget. destruct (Hvalues key v Hget) as [?|(s & w_s & Hs & Hk)]; [by left|].
    apply list_elem_of_filter in Hs as [Hsec Hs]. right. by exists s, w_s.
Qed.

Lemma parse_sections_all_depths_witness :
  (∀ s inner, s ∈ tag_descendants article_nested → inner ∈ tag_descendants s →
              inner ∈ tag_descendants article_nested)
  ∧ (∀ s, s ∈ tag_descendants article_nested → is_section (loc_tag s) = true →
          ∃ name, itemprop_of_section s = Some name
                  ∧ name ∈ dict_keys [("family", VNone);
                                      ("abstract", VDict [("content", VStr "Sample")])])
  ∧ (∀ key, key ∈ dict_keys [("family", VNone);
                             ("abstract", VDict [("content", VStr "Sample")])] ↔
            key ∈ dict_keys []
            ∨ ∃ s, s ∈ tag_descendants article_nested ∧ is_section (loc_tag s) = true
                   ∧ itemprop_of_section s = Some key)
  ∧ ∀ key v,
      dict_get key [("family", VNone); ("abstract", VDict [("content", VStr "Sample")])]
      = Some v →
      dict_get key [] = Some v
      ∨ ∃ s w_s, s ∈ tag_descendants article_nested ∧ is_section (loc_tag s) = true
                 ∧ itemprop_of_section s = Some key
                 ∧ (dispatch_section key s w_s).1 = Ok v.
Proof.
  apply (parse_sections_all_depths article_nested [] fresh_world
           [("family", VNone); ("abstract", VDict [("content", VStr "Sample")])]
           (World ∅ [UnhandledSection (tag_attrs outer_section)])).
  vm_compute. reflexivity.
Defined.

(** C5, the claim as written fails: the scoped section nested in another
    scoped section is dispatched on its own into the top-level node. *)
Lemma nested_section_is_dispatched :
  map loc_tag (find_all article_nested is_section) = [outer_section; inner_section]
  ∧ (parse_html soup_nested fresh_world).1
    = Ok [("family", VNone); ("abstract", VDict [("content", VStr "Sample")])].
Proof. split; vm_compute; reflexivity. Qed.

(** *** The walker on a bounded call stack *)








Lemma bind_ext {A B} (m' m : M A) (k' k : A → M B) w :
  m' w = m w → (∀ a w1, k' a w1 = k a w1) → bind m' k' w = bind m k w.
Proof. intros Hm Hk. unfold bind. rewrite Hm. destruct (m w) as [[a|e] w1]; auto. Qed.

(** A stack with five frames for every level of nesting is never full. *)
Lemma parse_properties_call_fits ws' wc' ws wc stack t node w :
  (is_start_tag t = true → ∀ n w, ws' (S stack) n w = ws n w) →
  (∀ n w, wc' (S stack) n w = wc n w) →
  (∀ n w, wc' stack n w = wc n w) →
  parse_properties_call ws' wc' (S (S (S stack))) t node w
  = parse_properties_with ws wc t node w.
Proof.
  intros Hws Hwc1 Hwc. unfold parse_properties_call, parse_properties_with.
  cbn [call]. apply bind_ext; [done|]. intros [|] w1; [done|].
  apply bind_ext; [done|]. intros _ w2.
  destruct (is_start_tag t).
  { apply bind_ext; [done|]. intros label w3. apply bind_ext; [|done]. by apply Hws. }
  destruct (truthy _) as [[property_name|?]|]; [|done|apply Hwc1].
  destruct (named _ _); [done|].
  apply bind_ext; [|done].
  unfold property_value_call, property_value_with. cbn [call].
  destruct (has_attr t "itemscope"); [|done].
  apply bind_ext; [apply Hwc|done].
Qed.

Lemma loops_fit f :
  (∀ (stack : nat) n w,
     (5 * height f ≤ stack)%nat → children_loop_within stack f n w = children_loop f n w)
  ∧ (∀ (stack : nat) n w,
       (5 * height f ≤ stack + 2)%nat → siblings_loop_within stack f n w = siblings_loop f n w).
Proof.
  induction f as [t IH| | |i nm a c IH| |e IHe r IHr]
    using forest_mut
    with (P := λ e, match e with
                    | ETag t =>
                        ∀ (stack : nat) n w,
                          (5 * height (tag_contents t) ≤ stack)%nat →
                          children_loop_within stack (tag_contents t) n w
                          = children_loop (tag_contents t) n w
                    | _ => True
                    end)
         (P0 := λ t, ∀ (stack : nat) n w,
                  (5 * height (tag_contents t) ≤ stack)%nat →
                  children_loop_within stack (tag_contents t) n w
                  = children_loop (tag_contents t) n w).
  - apply IH.
  - done.
  - done.
  - apply IH.
  - done.
  - destruct IHr as [IHc IHs].
    split; intros stack n w Hfit; destruct e as [t| |];
      cbn [children_loop children_loop_within siblings_loop siblings_loop_within height]
        in *;
      try first [by apply IHc | by apply IHs].
    + destruct stack as [|[|[|stack]]]; [lia..|].
      apply bind_ext; [|intros; apply IHc; lia].
      apply parse_properties_call_fits.
      * intros _ n' w'. apply IHs. lia.
      * intros n' w'. apply IHe. lia.
      * intros n' w'. apply IHe. lia.
    + destruct (is_start_tag t) eqn:Hstart; [done|].
      destruct stack as [|[|[|stack]]]; [lia..|].
      apply bind_ext; [|intros; apply IHs; lia].
      apply parse_properties_call_fits.
      * by rewrite Hstart.
      * intros n' w'. apply IHe. lia.
      * intros n' w'. apply IHe. lia.
Qed.

Lemma parse_properties_fits stack t next_siblings node w :
  (5 * height (fcons (ETag t) next_siblings) ≤ stack)%nat →
  parse_properties_within stack t next_siblings node w
  = parse_properties t next_siblings node w.
Proof.
  cbn [height]. intros Hfit. destruct stack as [|[|[|stack]]]; [lia..|].
  apply parse_properties_call_fits.
  - intros _ n' w'. apply loops_fit. lia.
  - intros n' w'. apply loops_fit. lia.
  - intros n' w'. apply loops_fit. lia.
Qed.



(** *** C3: how a parse can fail *)

Lemma safe_find_claims_loop text_tags : ∀ seen_tags yielded,
  safe possible_failure [] (find_claims_loop text_tags seen_tags yielded).
Proof.
  induction text_tags as [|text_tag rest IH]; intros seen yielded; cbn.
  - apply safe_ret.
  - destruct (find_parent _ _); [apply IH|].
    apply safe_raise. right. unfold precondition_failure. auto.
Qed.

Lemma safe_dispatch_section name section :
  safe possible_failure [] (dispatch_section name section).
Proof.
  unfold dispatch_section, parse_abstract, parse_description, parse_claims, find_claims.
  repeat case_match;
    repeat first
      [ apply safe_ret | apply safe_warn | apply safe_find_claims_loop
      | apply safe_bind; [|intros ?]
      | apply safe_raise; right; left; unfold listed_failure; by auto 6 ].
Qed.

Lemma safe_sections_loop sections : ∀ node,
  safe possible_failure [] (sections_loop sections node).
Proof.
  induction sections as [|section rest IH]; intros node; cbn.
  - apply safe_ret.
  - destruct (tag_get _ _) as [[name|?]|].
    + apply safe_bind; [apply safe_dispatch_section|]. intros v. apply IH.
    + apply safe_raise. right. unfold precondition_failure. auto.
    + apply safe_raise. right. unfold precondition_failure. auto.
Qed.







(** Six hundred nested [div] tags overflow a call stack with room for a
    thousand frames, the limit CPython starts with; a hundred do not. *)
Example deep_nesting_overflows :
  (parse_html_within 1000 (soup_nested_divs 600) fresh_world).1 = Raise RecursionError
  ∧ (parse_html_within 1000 (soup_nested_divs 100) fresh_world).1
    = Ok [("num", VStr "42")].
Proof. split; vm_compute; reflexivity. Qed.

(** A repeated property whose key already holds a scalar: [.append] is
    called on a string. *)
Example repeat_on_scalar_raises :
  (parse_html soup_repeat_on_scalar fresh_world).1 = Raise AttributeError.
Proof. vm_compute. reflexivity. Qed.

(** * Further properties of the module *)

Lemma safe_mono (E E' : exn → Prop) ids {A} (m : M A) :
  (∀ e, E e → E' e) → safe E ids m → safe E' ids m.
Proof.
  intros HE Hm w. destruct (Hm w) as (H1 & H2 & H3). split_and!; [done..|].
  intros e He. by apply HE, H3.
Qed.

(** *** [hack] during a parse *)

Lemma parse_html_unseen_ids_witness :
  (parse_html soup_second (World {[ 1; 2; 3 ]} [])).1
  = (parse_html soup_second fresh_world).1.
Proof.
  apply (parse_html_unseen_ids soup_second (World {[ 1; 2; 3 ]} [])).
  vm_compute forest_ids. cbn [hack]. intros i Hi. set_solver.
Defined.

(** A parse only ever adds to [hack], and what it adds are identities of
    tags of the tree it was given. *)
Theorem parse_html_hack_bounds soup w :
  (∀ i, i ∈ hack w → i ∈ hack (parse_html soup w).2)
  ∧ (∀ i, i ∈ hack (parse_html soup w).2 → i ∈ hack w ∨ i ∈ forest_ids soup).
Proof.
  assert (safe (λ _, True) (forest_ids soup) (parse_html soup)) as Hsafe.
  { unfold parse_html, soup_html, find, find_all, tag_descendants.
    destruct (head _) as [root|] eqn:Hroot; [|by apply safe_raise].
    destruct (head (filter _ (descendants _ (tag_contents (loc_tag root)))))
      as [article|] eqn:Harticle; [|by apply safe_raise].
    apply head_Some_elem_of, list_elem_of_filter in Hroot as [_ Hroot].
    apply head_Some_elem_of, list_elem_of_filter in Harticle as [_ Harticle].
    apply safe_bind.
    - eapply safe_weaken; [|by apply safe_parse_properties].
      intros i Hi. apply (descendants_ids _ _ _ Hroot). apply elem_of_app. left.
      unfold tag_ids. apply elem_of_cons. right.
      by apply (descendants_ids _ _ _ Harticle).
    - intros data. eapply safe_weaken; [|eapply safe_mono; [|apply safe_sections_loop]];
        [set_solver|done]. }
  destruct (Hsafe w) as (Hgrow & Hbound & _). by split.
Qed.

(** *** The transitions of the walker, one by one *)

(** A tag that declares no property and is not a label is transparent: the
    walker returns for it what it returns for its children. *)
Theorem wrapper_is_flattened i name attrs contents next_siblings node w :
  is_start_tag (Tag i name attrs contents) = false →
  truthy (tag_get (Tag i name attrs contents) "itemprop") = None →
  i ∉ hack w →
  i ∉ forest_ids contents →
  (parse_properties (Tag i name attrs contents) next_siblings node w).1
  = (parse_children_properties (Tag i name attrs contents) node w).1.
Proof.
  intros Hstart Hprop Hnew Hfresh.
  unfold parse_properties, parse_properties_with.
  unfold bind at 1, hack_mem. cbn [tag_id]. rewrite bool_decide_eq_false_2 by done.
  unfold bind at 1, hack_add. rewrite Hstart, Hprop.
  unfold parse_children_properties. cbn [tag_contents].
  apply (proj1 (frame_loops (forest_ids contents) contents (λ _ H, H)) node).
  intros j Hj. cbn. rewrite elem_of_union, elem_of_singleton.
  split; [|by right]. intros [->|?]; done.
Qed.

Lemma wrapper_is_flattened_witness :
  (parse_properties wrapper_div fnil [] fresh_world).1
  = (parse_children_properties wrapper_div [] fresh_world).1.
Proof.
  apply (wrapper_is_flattened 90 "div" [("class", AList ["box"])]
           (forest_of [ETag span_num]) fnil [] fresh_world).
  - reflexivity.
  - reflexivity.
  - cbn [fresh_world hack]. apply not_elem_of_empty.
  - vm_compute forest_ids. set_solver.
Defined.

(** A property tag changes no key of the accumulating node but its own
    property name, whatever its value is (a nested node included). *)
Theorem property_sets_only_its_key t name next_siblings node w node' w' :
  is_start_tag t = false →
  itemprop t = Some name →
  parse_properties t next_siblings node w = (Ok node', w') →
  ∀ key, key ≠ name → dict_get key node' = dict_get key node.
Proof.
  intros Hstart Hname Hrun key Hkey.
  destruct (decide (tag_id t ∈ hack w)) as [Hseen|Hnew].
  { rewrite parse_properties_visited in Hrun by done. by injection Hrun as <- _. }
  rewrite parse_properties_eq in Hrun.
  apply parse_properties_with_property with (name := name) in Hrun
    as [[_ ->]|(_ & value & w_s & stored & _ & _ & ->)]; [done| |done..].
  by apply dict_get_set_ne.
Qed.

Lemma property_sets_only_its_key_witness :
  dict_get "other" [("other", VNone); ("num", VStr "42")]
  = dict_get "other" [("other", VNone)].
Proof.
  apply (property_sets_only_its_key span_num "num" fnil [("other", VNone)] fresh_world
           [("other", VNone); ("num", VStr "42")] (World {[ 4 ]} [])).
  - reflexivity.
  - reflexivity.
  - vm_compute. reflexivity.
  - discriminate.
Defined.

(** *** Plain property tags *)

Lemma property_value_with_scalar walk_children t w :
  has_attr t "itemscope" = false →
  ∃ w', property_value_with walk_children t w = (Ok (scalar_value t), w')
        ∧ hack w' = hack w.
Proof.
  intros Hscope. unfold property_value_with, scalar_value. cbn [first_attr].
  rewrite Hscope.
  destruct (truthy (tag_get t "content")); [by eexists|].
  destruct (truthy (tag_get t "href")); [by eexists|].
  destruct (truthy (tag_get t "src")); [by eexists|].
  destruct (dot_string t); by eexists.
Qed.

Lemma scalar_property_step walk_siblings walk_children t name node w :
  scalar_property name t →
  tag_id t ∉ hack w →
  ∃ w1,
    hack w1 = {[ tag_id t ]} ∪ hack w
    ∧ parse_properties_with walk_siblings walk_children t node w
      = (if has_attr t "repeat" then
           match held_list (dict_get name node) with
           | Some l => Ok (dict_set name (VList (l ++ [scalar_value t])) node)
           | None => Raise AttributeError
           end
         else Ok (dict_set name (scalar_value t) node), w1).
Proof.
  intros (Hstart & Hsec & Hscope & Hname) Hnew. unfold parse_properties_with.
  unfold bind at 1, hack_mem. rewrite bool_decide_eq_false_2 by done.
  unfold bind at 1, hack_add. rewrite Hstart.
  unfold itemprop in Hname.
  destruct (truthy (tag_get t "itemprop")) as [[name'|?]|]; try done.
  injection Hname as ->. rewrite Hsec. unfold bind.
  destruct (property_value_with_scalar walk_children t
              (World ({[tag_id t]} ∪ hack w) (warnings w)) Hscope)
    as (w1 & -> & Hw1).
  exists w1. split; [done|].
  destruct (has_attr t "repeat"); [|done].
  by destruct (dict_get name node) as [[| |l|]|].
Qed.

(** A [repeat] property tag raises [AttributeError] exactly when its key
    already holds something that is not a list; the tag is in [hack] by
    then. *)
Theorem repeat_raises_on_non_list t name next_siblings node w :
  scalar_property name t →
  has_attr t "repeat" = true →
  tag_id t ∉ hack w →
  ((parse_properties t next_siblings node w).1 = Raise AttributeError
   ↔ held_list (dict_get name node) = None)
  ∧ tag_id t ∈ hack (parse_properties t next_siblings node w).2.
Proof.
  intros Hprop Hrepeat Hnew. split; [|apply parse_properties_marks].
  rewrite parse_properties_eq.
  destruct (scalar_property_step (siblings_loop next_siblings)
              (children_loop (tag_contents t)) t name node w Hprop Hnew)
    as (w1 & _ & ->).
  rewrite Hrepeat. by destruct (held_list (dict_get name node)).
Qed.

Lemma repeat_raises_on_non_list_witness :
  ((parse_properties (inventor 101 "Ann") fnil [("inventor", VStr "x")] fresh_world).1
   = Raise AttributeError
   ↔ held_list (dict_get "inventor" [("inventor", VStr "x")]) = None)
  ∧ 101 ∈ hack (parse_properties (inventor 101 "Ann") fnil
                  [("inventor", VStr "x")] fresh_world).2.
Proof.
  apply (repeat_raises_on_non_list (inventor 101 "Ann") "inventor" fnil
           [("inventor", VStr "x")] fresh_world).
  - by split_and!.
  - reflexivity.
  - cbn [fresh_world hack]. apply not_elem_of_empty.
Defined.

Lemma children_loop_text e rest node :
  (∀ t, e ≠ ETag t) → children_loop (fcons e rest) node = children_loop rest node.
Proof. intros He. destruct e; [by destruct (He t)|done..]. Qed.

Lemma repeat_loop f : ∀ node w,
  Forall (λ t, ∃ name, scalar_property name t ∧ has_attr t "repeat" = true
                       ∧ is_Some (held_list (dict_get name node))) (child_tags f) →
  NoDup (map tag_id (child_tags f)) →
  (∀ t, t ∈ child_tags f → tag_id t ∉ hack w) →
  ∃ node' w',
    children_loop f node w = (Ok node', w')
    ∧ ∀ key,
        dict_get key node'
        = match declaring key (child_tags f) with
          | [] => dict_get key node
          | ts => option_map (λ l, VList (l ++ map scalar_value ts))
                    (held_list (dict_get key node))
          end.
Proof.
  induction f as [|e rest IH]; intros node w Hall Hnd Hnew.
  { exists node, w. by split. }
  destruct e as [t| |]; cbn [child_tags] in *; [|by apply IH..].
  apply Forall_cons in Hall as [(name & Hprop & Hrepeat & [l0 Hl0]) Hall].
  cbn [map] in Hnd. apply NoDup_cons in Hnd as [Ht Hnd].
  destruct (scalar_property_step (siblings_loop rest) (children_loop (tag_contents t))
              t name node w Hprop) as (w1 & Hw1 & Hstep); [set_solver|].
  rewrite Hrepeat, Hl0 in Hstep.
  set (node1 := dict_set name (VList (l0 ++ [scalar_value t])) node) in *.
  destruct (IH node1 w1) as (node' & w' & Hrun & Hget); [|done| |].
  { eapply Forall_impl; [exact Hall|]. cbn.
    intros t' (name' & Hprop' & Hrepeat' & Hheld). exists name'. split_and!; [done..|].
    unfold node1. destruct (decide (name' = name)) as [->|Hne].
    - by rewrite dict_get_set_eq.
    - by rewrite dict_get_set_ne. }
  { intros t' Ht'. rewrite Hw1. intros [Heq%elem_of_singleton|Hin]%elem_of_union.
    - apply Ht. rewrite <- Heq. apply list_elem_of_In, in_map, list_elem_of_In, Ht'.
    - by apply (Hnew t'); [set_solver|]. }
  exists node', w'. split.
  { cbn [children_loop]. unfold bind. by rewrite Hstep. }
  intros key. rewrite Hget. unfold declaring. rewrite filter_cons.
  destruct Hprop as (_ & _ & _ & Hname).
  destruct (decide (itemprop t = Some key)) as [Hkey|Hkey].
  - assert (key = name) as -> by congruence.
    unfold node1. rewrite dict_get_set_eq, Hl0. cbn.
    destruct (filter _ (child_tags rest)); cbn; [done|].
    by rewrite <- app_assoc.
  - assert (key ≠ name) as Hne by congruence.
    unfold node1. by rewrite dict_get_set_ne.
Qed.

(** Children that are all [repeat] property tags, fed to the walker for the
    first time, never make it raise, and each key ends up holding the list it
    held followed by the values of the tags of that name, in document
    order. *)
Theorem repeat_properties_accumulate parent node w :
  Forall (λ t, ∃ name, scalar_property name t ∧ has_attr t "repeat" = true
                       ∧ is_Some (held_list (dict_get name node)))
    (child_tags (tag_contents parent)) →
  NoDup (map tag_id (child_tags (tag_contents parent))) →
  (∀ t, t ∈ child_tags (tag_contents parent) → tag_id t ∉ hack w) →
  ∃ node' w',
    parse_children_properties parent node w = (Ok node', w')
    ∧ ∀ key,
        dict_get key node'
        = match declaring key (child_tags (tag_contents parent)) with
          | [] => dict_get key node
          | ts => option_map (λ l, VList (l ++ map scalar_value ts))
                    (held_list (dict_get key node))
          end.
Proof. apply repeat_loop. Qed.

Lemma repeat_properties_accumulate_witness :
  ∃ node' w',
    parse_children_properties repeat_parent [] fresh_world = (Ok node', w')
    ∧ ∀ key,
        dict_get key node'
        = match declaring key (child_tags (tag_contents repeat_parent)) with
          | [] => dict_get key []
          | ts => option_map (λ l, VList (l ++ map scalar_value ts))
                    (held_list (dict_get key []))
          end.
Proof.
  apply (repeat_properties_accumulate repeat_parent [] fresh_world).
  - repeat (constructor; [exists "inventor"; split_and!; by eauto|]). constructor.
  - vm_compute. repeat constructor; set_solver.
  - intros t _. cbn [fresh_world hack]. apply not_elem_of_empty.
Defined.

Example repeat_parent_walk :
  (parse_children_properties repeat_parent [] fresh_world).1
  = Ok [("inventor", VList [VStr "Ann"; VStr "Bob"; VStr "Cy"])].
Proof. vm_compute. reflexivity. Qed.

Lemma scalar_loop f : ∀ node w,
  Forall (λ t, ∃ name, scalar_property name t ∧ has_attr t "repeat" = false)
    (child_tags f) →
  NoDup (map tag_id (child_tags f)) →
  (∀ t, t ∈ child_tags f → tag_id t ∉ hack w) →
  ∃ node' w',
    children_loop f node w = (Ok node', w')
    ∧ ∀ key,
        dict_get key node'
        = match last_declaring key (child_tags f) with
          | Some t => Some (scalar_value t)
          | None => dict_get key node
          end.
Proof.
  induction f as [|e rest IH]; intros node w Hall Hnd Hnew.
  { exists node, w. by split. }
  destruct e as [t| |]; cbn [child_tags] in *; [|by apply IH..].
  apply Forall_cons in Hall as [(name & Hprop & Hrepeat) Hall].
  cbn [map] in Hnd. apply NoDup_cons in Hnd as [Ht Hnd].
  destruct (scalar_property_step (siblings_loop rest) (children_loop (tag_contents t))
              t name node w Hprop) as (w1 & Hw1 & Hstep); [set_solver|].
  rewrite Hrepeat in Hstep.
  destruct (IH (dict_set name (scalar_value t) node) w1)
    as (node' & w' & Hrun & Hget); [done..| |].
  { intros t' Ht'. rewrite Hw1. intros [Heq%elem_of_singleton|Hin]%elem_of_union.
    - apply Ht. rewrite <- Heq. apply list_elem_of_In, in_map, list_elem_of_In, Ht'.
    - by apply (Hnew t'); [set_solver|]. }
  exists node', w'. split.
  { cbn [children_loop]. unfold bind. by rewrite Hstep. }
  intros key. rewrite Hget. unfold last_declaring. rewrite filter_cons.
  destruct Hprop as (_ & _ & _ & Hname).
  destruct (decide (itemprop t = Some key)) as [Hkey|Hkey].
  - assert (key = name) as -> by congruence.
    rewrite last_cons. destruct (last _); [done|apply dict_get_set_eq].
  - assert (key ≠ name) as Hne by congruence.
    destruct (last _); [done|by apply dict_get_set_ne].
Qed.

(** Children that are all property tags without [repeat], fed to the walker
    for the first time, never make it raise, and a key that several of them
    declare ends up holding the value of the last one; the keys none of them
    declares are unchanged. *)
Theorem scalar_properties_last_wins parent node w :
  Forall (λ t, ∃ name, scalar_property name t ∧ has_attr t "repeat" = false)
    (child_tags (tag_contents parent)) →
  NoDup (map tag_id (child_tags (tag_contents parent))) →
  (∀ t, t ∈ child_tags (tag_contents parent) → tag_id t ∉ hack w) →
  ∃ node' w',
    parse_children_properties parent node w = (Ok node', w')
    ∧ ∀ key,
        dict_get key node'
        = match last_declaring key (child_tags (tag_contents parent)) with
          | Some t => Some (scalar_value t)
          | None => dict_get key node
          end.
Proof. apply scalar_loop. Qed.

Lemma scalar_properties_last_wins_witness :
  ∃ node' w',
    parse_children_properties scalar_parent [("title", VNone)] fresh_world
    = (Ok node', w')
    ∧ ∀ key,
        dict_get key node'
        = match last_declaring key (child_tags (tag_contents scalar_parent)) with
          | Some t => Some (scalar_value t)
          | None => dict_get key [("title", VNone)]
          end.
Proof.
  apply (scalar_properties_last_wins scalar_parent [("title", VNone)] fresh_world).
  - repeat (constructor; [eexists; by split_and!|]). constructor.
  - vm_compute. repeat constructor; set_solver.
  - intros t _. cbn [fresh_world hack]. apply not_elem_of_empty.
Defined.

Example scalar_parent_walk :
  (parse_children_properties scalar_parent [("title", VNone)] fresh_world).1
  = Ok [("title", VStr "New"); ("link", VStr "/p")].
Proof. vm_compute. reflexivity. Qed.

(** *** The shape of a label *)

Lemma lower_char_nonspace c : nonspace (PyStr.lower_char c) = nonspace c.
Proof. by destruct c as [[] [] [] [] [] [] [] []]. Qed.

Lemma upper_char_nonspace c : nonspace (PyStr.upper_char c) = nonspace c.
Proof. by destruct c as [[] [] [] [] [] [] [] []]. Qed.

Lemma lower_char_alnum c :
  PyStr.isalnum c = true →
  PyStr.islower (PyStr.lower_char c) || PyStr.isdigit (PyStr.lower_char c) = true.
Proof. by destruct c as [[] [] [] [] [] [] [] []]. Qed.

Lemma all_chars_app p a b :
  all_chars p (a +:+ b) = all_chars p a && all_chars p b.
Proof. induction a as [|c a IH]; simpl; [done|]. by rewrite IH, andb_assoc. Qed.

Lemma lower_nonspace s :
  all_chars nonspace (PyStr.lower s) = all_chars nonspace s.
Proof. induction s as [|c s IH]; cbn; [done|]. by rewrite lower_char_nonspace, IH. Qed.

Lemma capitalize_nonspace s :
  all_chars nonspace (PyStr.capitalize s) = all_chars nonspace s.
Proof. destruct s as [|c s]; cbn; [done|]. by rewrite upper_char_nonspace, lower_nonspace. Qed.

Lemma split_from_nonspace s : ∀ word,
  all_chars nonspace word = true →
  Forall (λ p, all_chars nonspace p = true) (PyStr.split_from word s).
Proof.
  induction s as [|c r IH]; intros word Hword; cbn.
  - destruct word; by repeat constructor.
  - destruct (PyStr.isspace c) eqn:Hc.
    + destruct word; [by apply IH|]. constructor; [done|by apply IH].
    + apply IH. rewrite all_chars_app, Hword. cbn. unfold nonspace. by rewrite Hc.
Qed.

Lemma join_empty_nonspace parts :
  Forall (λ p, all_chars nonspace p = true) parts →
  all_chars nonspace (PyStr.join_empty parts) = true.
Proof.
  induction 1 as [|p parts Hp _ IH]; [done|].
  unfold PyStr.join_empty in *. cbn [fold_right]. by rewrite all_chars_app, Hp, IH.
Qed.

Lemma lower_char_ascii c : ascii_char (PyStr.lower_char c) = ascii_char c.
Proof. by destruct c as [[] [] [] [] [] [] [] []]. Qed.

Lemma upper_char_ascii c : ascii_char (PyStr.upper_char c) = ascii_char c.
Proof. by destruct c as [[] [] [] [] [] [] [] []]. Qed.

Lemma lower_ascii s : isascii (PyStr.lower s) = isascii s.
Proof.
  unfold isascii. induction s as [|c s IH]; [done|].
  cbn [PyStr.lower all_chars]. by rewrite lower_char_ascii, IH.
Qed.

Lemma capitalize_ascii s : isascii (PyStr.capitalize s) = isascii s.
Proof.
  destruct s as [|c s]; [done|]. unfold isascii. cbn [PyStr.capitalize all_chars].
  rewrite upper_char_ascii. f_equal. apply lower_ascii.
Qed.

Lemma lstrip_all p s : all_chars p s = true → all_chars p (PyStr.lstrip s) = true.
Proof.
  induction s as [|c s IH]; cbn; [done|]. intros [Hc Hs]%andb_true_iff.
  destruct (PyStr.isspace c); [by apply IH|]. cbn. by rewrite Hc, Hs.
Qed.

Lemma rstrip_all p s : all_chars p s = true → all_chars p (PyStr.rstrip s) = true.
Proof.
  induction s as [|c s IH]; cbn; [done|]. intros [Hc Hs]%andb_true_iff.
  specialize (IH Hs). destruct (PyStr.rstrip s) as [|c' s'].
  - destruct (PyStr.isspace c); cbn; [done|]. by rewrite Hc.
  - cbn in *. by rewrite Hc, IH.
Qed.

Lemma split_from_all p s : ∀ word,
  all_chars p word = true → all_chars p s = true →
  Forall (λ part, all_chars p part = true) (PyStr.split_from word s).
Proof.
  induction s as [|c r IH]; intros word Hword Hs; cbn.
  - destruct word; by repeat constructor.
  - cbn in Hs. apply andb_true_iff in Hs as [Hc Hr].
    destruct (PyStr.isspace c).
    + destruct word; [by apply IH|]. constructor; [done|by apply IH].
    + apply IH; [|done]. rewrite all_chars_app, Hword. cbn. by rewrite Hc.
Qed.

Lemma join_empty_all p parts :
  Forall (λ part, all_chars p part = true) parts →
  all_chars p (PyStr.join_empty parts) = true.
Proof.
  induction 1 as [|part parts Hpart _ IH]; [done|].
  unfold PyStr.join_empty in *. cbn [fold_right]. by rewrite all_chars_app, Hpart, IH.
Qed.

(** The label of an ASCII text is ASCII and has no white space in it, and
    it is empty or starts with a lower-case letter or a digit. *)
Theorem parse_label_shape t w label :
  (∀ raw, dot_string t = Some raw → isascii raw = true) →
  (parse_label t w).1 = Ok label →
  isascii label = true
  ∧ all_chars nonspace label = true
  ∧ match label with
    | EmptyString => True
    | String c _ => PyStr.islower c || PyStr.isdigit c = true
    end.
Proof.
  intros Hascii. unfold parse_label.
  destruct (dot_string t) as [raw|]; [|by intros [= <-]].
  specialize (Hascii raw eq_refl).
  destruct (parse_label_loop_spec (PyStr.split (PyStr.strip raw)) 0 []
              (split_nonempty _)) as (kept & rest & Hsplit & Hkept & _ & Hrun).
  unfold bind. rewrite Hrun. cbn. intros [= <-].
  assert (Forall (λ p, all_chars nonspace p = true) kept) as Hclean.
  { pose proof (split_from_nonspace (PyStr.strip raw) EmptyString eq_refl) as Hall.
    fold (PyStr.split (PyStr.strip raw)) in Hall. rewrite Hsplit in Hall.
    by apply Forall_app in Hall as [? _]. }
  assert (Forall (λ p, isascii p = true) kept) as Hplain.
  { pose proof (split_from_all ascii_char (PyStr.strip raw) EmptyString eq_refl) as Hall.
    fold (PyStr.split (PyStr.strip raw)) in Hall. rewrite Hsplit in Hall.
    apply Forall_app in Hall as [? _]; [done|].
    by apply rstrip_all, lstrip_all. }
  destruct kept as [|first others]; [done|].
  apply Forall_cons in Hclean as [Hfirst Hothers].
  apply Forall_cons in Hplain as [Hfirst' Hothers'].
  apply Forall_cons in Hkept as [Hlead _].
  split_and!.
  - apply join_empty_all. cbn [camel_case]. constructor.
    + fold (isascii (PyStr.lower first)). by rewrite lower_ascii.
    + clear -Hothers'. induction Hothers' as [|p ps Hp _ IH]; cbn; constructor; [|done].
      fold (isascii (PyStr.capitalize p)). by rewrite capitalize_ascii.
  - apply join_empty_nonspace. cbn [camel_case]. constructor.
    + by rewrite lower_nonspace.
    + clear -Hothers. induction Hothers as [|p ps Hp _ IH]; cbn; constructor; [|done].
      by rewrite capitalize_nonspace.
  - destruct first as [|c tl]; [done|]. cbn. by apply lower_char_alnum.
Qed.

Lemma parse_label_shape_witness :
  isascii "filingDate:" = true
  ∧ all_chars nonspace "filingDate:" = true
  ∧ PyStr.islower "f" || PyStr.isdigit "f" = true.
Proof.
  apply (parse_label_shape label_filing fresh_world "filingDate:").
  - intros raw Hraw. vm_compute in Hraw. injection Hraw as <-. vm_compute. reflexivity.
  - vm_compute. reflexivity.
Defined.

(** *** Looking a tag up by its class *)

Lemma join_space_blank x y rest :
  all_chars not_blank (PyStr.join_space (x :: y :: rest)) = false.
Proof.
  cbn [PyStr.join_space]. rewrite !all_chars_app. cbn.
  by rewrite andb_false_r.
Qed.

(** On a tag whose [class] is a list, as [html.parser] builds it, the
    search by [attrs] that [parse_description] uses and [has_class], which
    [parse_claims] and [find_claims] use, find the same tags, for any class
    name that is not empty and has no space in it. *)
Theorem class_lookups_agree t classes class_name :
  tag_get t "class" = Some (AList classes) →
  class_name ≠ EmptyString →
  all_chars not_blank class_name = true →
  class_matches class_name t = has_class t class_name.
Proof.
  intros Hclass Hne Hblank. unfold class_matches, has_class. rewrite Hclass.
  destruct classes as [|x [|y rest]]; cbn [truthy PyStr.join_space].
  - unfold PyStr.mem, PyStr.eqb.
    rewrite !bool_decide_eq_false_2; [done|congruence|set_solver].
  - unfold PyStr.mem, PyStr.eqb.
    destruct (decide (x = class_name)) as [->|Hx].
    + rewrite !bool_decide_eq_true_2; [done..|set_solver].
    + rewrite !bool_decide_eq_false_2; [done..|set_solver].
  - destruct (PyStr.mem class_name (x :: y :: rest)); [done|]. cbn.
    unfold PyStr.eqb. apply bool_decide_eq_false_2. intros Heq.
    pose proof (join_space_blank x y rest) as Hjoin.
    cbn [PyStr.join_space] in Hjoin. rewrite Heq in Hjoin. congruence.
Qed.

Lemma class_lookups_agree_witness :
  class_matches "description" description_two_classes
  = has_class description_two_classes "description".
Proof.
  apply (class_lookups_agree description_two_classes ["description"; "main"]
           "description").
  - reflexivity.
  - discriminate.
  - reflexivity.
Defined.

(** *** When [find_claims] fails *)

Lemma find_claims_loop_cases text_tags : ∀ seen_tags yielded w,
  (Forall (λ tt, is_Some (claim_of tt)) text_tags
   ∧ ∃ claims, find_claims_loop text_tags seen_tags yielded w = (Ok claims, w))
  ∨ (Exists (λ tt, claim_of tt = None) text_tags
     ∧ find_claims_loop text_tags seen_tags yielded w
       = (Raise (AssertionError assert_claim), w)).
Proof.
  induction text_tags as [|text_tag rest IH]; intros seen yielded w; cbn.
  { left. split; [constructor|by eexists]. }
  fold (claim_of text_tag). destruct (claim_of text_tag) as [claim|] eqn:Hclaim.
  - destruct (IH ({[tag_id claim]} ∪ seen)
                (if bool_decide (tag_id claim ∈ seen) then yielded
                 else yielded ++ [claim]) w) as [[Hall Hok]|[Hex Hraise]].
    + left. split; [|done]. constructor; [by rewrite Hclaim|done].
    + right. split; [by apply Exists_cons_tl|done].
  - right. split; [by apply Exists_cons_hd|done].
Qed.

(** [find_claims] raises its assertion exactly when some claim-text tag
    below the claims tag has no ancestor of class [claim], and returns
    exactly when every one has; a single such tag makes [parse_claims] raise
    too, so no claim of the section is returned.  Neither touches [hack] or
    the log. *)
Theorem find_claims_raises_iff claims_tag w :
  (find_claims claims_tag w = (Raise (AssertionError assert_claim), w)
   ↔ Exists (λ tt, claim_of tt = None) (claim_text_tags claims_tag))
  ∧ ((∃ claims, find_claims claims_tag w = (Ok claims, w))
     ↔ Forall (λ tt, is_Some (claim_of tt)) (claim_text_tags claims_tag))
  ∧ ∀ section,
      find section (λ t, has_class t "claims") = Some claims_tag →
      Exists (λ tt, claim_of tt = None) (claim_text_tags claims_tag) →
      parse_claims section w = (Raise (AssertionError assert_claim), w).
Proof.
  unfold find_claims. fold (claim_text_tags claims_tag).
  assert (∀ tts, Forall (λ tt, is_Some (claim_of tt)) tts →
                 Exists (λ tt, claim_of tt = None) tts → False) as Hexcl.
  { intros tts Hall Hex. apply Exists_exists in Hex as (tt & Hin & Hnone).
    rewrite Forall_forall in Hall. destruct (Hall tt Hin) as [c Hc]. congruence. }
  destruct (find_claims_loop_cases (claim_text_tags claims_tag) ∅ [] w)
    as [[Hall [claims Hok]]|[Hex Hraise]].
  - split_and!.
    + rewrite Hok. split; [done|]. intros Hex. destruct (Hexcl _ Hall Hex).
    + split; [done|by exists claims].
    + intros section _ Hex. destruct (Hexcl _ Hall Hex).
  - split_and!.
    + by rewrite Hraise.
    + split; [intros [claims Hok]; by rewrite Hraise in Hok|].
      intros Hall. destruct (Hexcl _ Hall Hex).
    + intros section Hsec _. unfold parse_claims. rewrite Hsec.
      unfold bind, find_claims. fold (claim_text_tags claims_tag). by rewrite Hraise.
Qed.

(** *** Nothing of a description is lost *)

Lemma heading_parts_lines targets :
  leading_lines targets ++ List.concat (map lines (heading_parts targets))
  = map line_of (filter (λ t, named "heading" t = false) targets).
Proof.
  assert (∀ ts, leading_lines ts ++ List.concat (map lines (heading_parts ts))
                = map line_of (filter (λ t, named "heading" t = false) ts)) as H.
  { induction ts as [|t rest IH]; [done|].
    rewrite filter_cons. cbn [leading_lines heading_parts].
    destruct (named "heading" t) eqn:Ht.
    - rewrite decide_False by done. cbn. by rewrite IH.
    - rewrite decide_True by done. cbn. by rewrite IH. }
  apply H.
Qed.

Lemma heading_parts_headings targets :
  map heading (heading_parts targets)
  = map get_text_strip (filter (λ t, named "heading" t = true) targets).
Proof.
  induction targets as [|t rest IH]; [done|].
  rewrite filter_cons. cbn [heading_parts].
  destruct (named "heading" t) eqn:Ht.
  - rewrite decide_True by done. cbn. by rewrite IH.
  - by rewrite decide_False by done.
Qed.

(** The lines of the parts, put end to end, are the lines of all the
    [description-line] tags in document order, each once; the headings of the
    parts are the empty string followed by the texts of the heading tags in
    document order. *)
Theorem description_lines_conserved description :
  List.concat (map lines (description_parts description))
  = map line_of (filter (λ t, named "heading" t = false)
                   (description_targets description))
  ∧ map heading (description_parts description)
    = EmptyString :: map get_text_strip
                       (filter (λ t, named "heading" t = true)
                          (description_targets description)).
Proof.
  unfold description_parts. fold (description_targets description).
  rewrite parts_loop_spec. cbn. split.
  - apply heading_parts_lines.
  - by rewrite heading_parts_headings.
Qed.

(** *** What [parse_sections] writes *)

Lemma sections_loop_overwrites sections : ∀ node w node' w',
  sections_loop sections node w = (Ok node', w') →
  ∀ key,
    match last_section key sections with
    | Some s => ∃ w_s v, (dispatch_section key s w_s).1 = Ok v
                         ∧ dict_get key node' = Some v
    | None => dict_get key node' = dict_get key node
    end.
Proof.
  induction sections as [|s rest IH]; intros node w node' w'; cbn [sections_loop].
  { by intros [= <- _] key. }
  destruct (tag_get (loc_tag s) "itemprop") as [[name|?]|] eqn:Hname; try done.
  unfold bind. destruct (dispatch_section name s w) as [[v|?] w1] eqn:Hv; [|done].
  intros Hrun key. specialize (IH _ _ _ _ Hrun key).
  unfold last_section in *. rewrite filter_cons.
  assert (itemprop_of_section s = Some name) as Hs.
  { unfold itemprop_of_section. by rewrite Hname. }
  destruct (decide (itemprop_of_section s = Some key)) as [Hkey|Hkey].
  - assert (key = name) as -> by congruence.
    rewrite last_cons. destruct (last _); [done|].
    exists w, v. rewrite Hv. split; [done|]. by rewrite IH, dict_get_set_eq.
  - destruct (last _); [done|]. rewrite IH. apply dict_get_set_ne. congruence.
Qed.

(** When [parse_sections] returns, a key that is the property name of some
    scoped section below the article holds what the dispatch of the last such
    section returned, whatever the generic walk had put there; every other
    key holds what it held. *)
Theorem parse_sections_overwrites article node w node' w' key :
  parse_sections article node w = (Ok node', w') →
  match last_section key (find_all article is_section) with
  | Some s => ∃ w_s v, (dispatch_section key s w_s).1 = Ok v
                       ∧ dict_get key node' = Some v
  | None => dict_get key node' = dict_get key node
  end.
Proof. intros Hrun. by apply (sections_loop_overwrites _ node w node' w'). Qed.

Lemma parse_sections_overwrites_witness :
  match last_section "abstract" (find_all article_nested is_section) with
  | Some s =>
      ∃ w_s v, (dispatch_section "abstract" s w_s).1 = Ok v
               ∧ dict_get "abstract"
                   [("abstract", VDict [("content", VStr "Sample")]); ("family", VNone)]
                 = Some v
  | None =>
      dict_get "abstract"
        [("abstract", VDict [("content", VStr "Sample")]); ("family", VNone)]
      = dict_get "abstract" [("abstract", VStr "from the walk")]
  end.
Proof.
  apply (parse_sections_overwrites article_nested [("abstract", VStr "from the walk")]
           fresh_world
           [("abstract", VDict [("content", VStr "Sample")]); ("family", VNone)]
           (World ∅ [UnhandledSection (tag_attrs outer_section)]) "abstract").
  vm_compute. reflexivity.
Defined.

(** *** The node of an abstract *)

Lemma dict_get_attrs_items t key :
  dict_get key (attrs_items t) = option_map attr_value (tag_get t key).
Proof.
  unfold attrs_items, tag_get. induction (tag_attrs t) as [|[k v] attrs IH]; [done|].
  cbn. by destruct (PyStr.eqb k key).
Qed.

Lemma attrs_items_keys t : map fst (attrs_items t) = map fst (tag_attrs t).
Proof.
  unfold attrs_items. induction (tag_attrs t) as [|[k v] attrs IH]; [done|].
  cbn. by rewrite IH.
Qed.

(** [parse_abstract] raises its assertion when the section has no
    [abstract] tag below it, and leaves [hack] and the log alone.  Otherwise
    the node made of its fields has the keys of the first such tag's
    attributes, [class] included, and [content]; [content] holds the tag's
    stripped text even when the tag has a [content] attribute, and every
    other key holds the attribute's value. *)
Theorem parse_abstract_node section w :
  match find section (named "abstract") with
  | None => parse_abstract section w = (Raise (AssertionError assert_abstract), w)
  | Some abstract =>
      ∃ fields,
        parse_abstract section w = (Ok fields, w)
        ∧ dict_get "content" (dict fields)
          = Some (VStr (get_text_strip (loc_tag abstract)))
        ∧ (∀ key, key ∈ dict_keys (dict fields) ↔
                  key = "content" ∨ key ∈ map fst (tag_attrs (loc_tag abstract)))
        ∧ (NoDup (map fst (tag_attrs (loc_tag abstract))) →
           ∀ key, key ≠ "content" →
                  dict_get key (dict fields)
                  = option_map attr_value (tag_get (loc_tag abstract) key))
  end.
Proof.
  unfold parse_abstract. destruct (find section (named "abstract")) as [abstract|]; [|done].
  eexists. split; [done|]. split_and!.
  - rewrite dict_snoc. apply dict_get_set_eq.
  - intros key. unfold dict. rewrite dict_keys_fold, map_app, elem_of_app, attrs_items_keys.
    cbn. set_solver.
  - intros Hnd key Hkey. rewrite dict_snoc, dict_get_set_ne by done.
    rewrite dict_NoDup by (unfold dict_keys; by rewrite attrs_items_keys).
    apply dict_get_attrs_items.
Qed.

Example parse_abstract_sample :
  (parse_abstract abstract_section fresh_world).1
  = Ok [("lang", VStr "EN"); ("content", VStr "x"); ("class", VList [VStr "abstract"]);
        ("content", VStr "Arotor.")]
  ∧ dict [("lang", VStr "EN"); ("content", VStr "x"); ("class", VList [VStr "abstract"]);
          ("content", VStr "Arotor.")]
    = [("lang", VStr "EN"); ("content", VStr "Arotor.");
       ("class", VList [VStr "abstract"])].
Proof. split; vm_compute; reflexivity. Qed.

(** *** A document without root or article *)

Lemma safe_sections_loop_sites (E : exn → Prop) sections :
  (∀ e, section_exn e → E e) →
  ∀ node, safe E [] (sections_loop sections node).
Proof.
  intros Hsec.
  induction sections as [|section rest IH]; intros node; cbn; [apply safe_ret|].
  destruct (tag_get _ _) as [[name|?]|];
    [|apply safe_raise, Hsec; unfold section_exn; by auto..].
  apply safe_bind; [|intros v; apply IH].
  unfold dispatch_section, parse_abstract, parse_description, parse_claims, find_claims.
  assert (∀ tts seen yielded, safe E [] (find_claims_loop tts seen yielded)) as Hloop.
  { induction tts as [|tt tts IHt]; intros seen yielded; cbn; [apply safe_ret|].
    destruct (find_parent _ _); [apply IHt|].
    apply safe_raise, Hsec. unfold section_exn. auto 7. }
  repeat case_match;
    repeat first
      [ apply safe_ret | apply safe_warn | apply Hloop
      | apply safe_bind; [|intros ?]
      | apply safe_raise, Hsec; unfold section_exn; by auto 7 ].
Qed.

(** [parse_html] raises the assertion on the root exactly when the document
    has no [html] tag, and the assertion on the article exactly when it has
    one with no [article] tag below it; nothing that runs afterwards raises
    either of them.  In both cases [hack] and the log are as they were. *)
Theorem parse_html_missing_root_or_article soup w :
  ((parse_html soup w).1 = Raise (AssertionError assert_root)
   ↔ soup_html soup = None)
  ∧ ((parse_html soup w).1 = Raise (AssertionError assert_article)
     ↔ ∃ root, soup_html soup = Some root ∧ find root (named "article") = None)
  ∧ (soup_html soup = None
     ∨ (∃ root, soup_html soup = Some root ∧ find root (named "article") = None) →
     (parse_html soup w).2 = w).
Proof.
  unfold parse_html. destruct (soup_html soup) as [root|].
  2:{ split_and!; [done| |done]. split; [done|]. by intros (? & ? & _). }
  destruct (find root (named "article")) as [article|] eqn:Harticle.
  2:{ split_and!; [done| |done]. split; [by exists root|done]. }
  match goal with |- context [(?m w).1] => set (run := m) end.
  assert (∀ e, (run w).1 = Raise e → walker_exn e ∨ section_exn e) as Hsites.
  { assert (∃ ids, safe (λ e, walker_exn e ∨ section_exn e) ids run) as [ids Hsafe];
      [|apply Hsafe].
    eexists. apply safe_bind.
    - apply safe_parse_properties. auto.
    - intros data. eapply safe_weaken; [|apply safe_sections_loop_sites; auto].
      set_solver. }
  split_and!.
  - split; [|done]. intros [He|He]%Hsites.
    + by destruct He.
    + unfold section_exn in He. repeat destruct He as [He|He]; discriminate He.
  - split; [|intros (? & [= <-] & ?); congruence]. intros [He|He]%Hsites.
    + by destruct He.
    + unfold section_exn in He. repeat destruct He as [He|He]; discriminate He.
  - intros [?|(? & [= <-] & ?)]; congruence.
Qed.

(** *** Label groups and the parent node *)

Lemma siblings_loop_empty_group f : ∀ node w,
  label_group f = [] → siblings_loop f node w = (Ok node, w).
Proof.
  induction f as [|e rest IH]; intros node w Hgroup; [done|].
  destruct e as [s| |]; cbn [siblings_loop label_group] in *; [|by apply IH..].
  by destruct (is_start_tag s).
Qed.

(** A label tag with no tag between it and the next label tag, or the end of
    its parent, installs an empty node under the label [parse_label] gives
    it; only its own identity is added to [hack], and the only warning is
    the one of [parse_label]. *)
Theorem label_without_properties t next_siblings node w :
  is_start_tag t = true →
  tag_id t ∉ hack w →
  label_group next_siblings = [] →
  ∃ label,
    (parse_label t w).1 = Ok label
    ∧ parse_properties t next_siblings node w
      = (Ok (dict_set label (VDict []) node),
         World ({[ tag_id t ]} ∪ hack w) (warnings (parse_label t w).2)).
Proof.
  intros Hstart Hnew Hgroup. rewrite parse_properties_label by done.
  unfold parse_label, parse_siblings_properties.
  destruct (dot_string t) as [raw|].
  - destruct (parse_label_loop_returns (PyStr.split (PyStr.strip raw)) 0 []
                (split_nonempty _)) as [parts Hparts].
    exists (PyStr.join_empty parts). unfold bind. rewrite !Hparts. cbn.
    by rewrite siblings_loop_empty_group.
  - exists EmptyString. unfold bind. cbn. by rewrite siblings_loop_empty_group.
Qed.

Lemma label_without_properties_witness :
  ∃ label,
    (parse_label label_status fresh_world).1 = Ok label
    ∧ parse_properties label_status status_siblings [] fresh_world
      = (Ok (dict_set label (VDict []) []),
         World ({[ tag_id label_status ]} ∪ hack fresh_world)
           (warnings (parse_label label_status fresh_world).2)).
Proof.
  apply (label_without_properties label_status status_siblings [] fresh_world).
  - reflexivity.
  - cbn [fresh_world hack]. apply not_elem_of_empty.
  - reflexivity.
Defined.

Lemma children_loop_marks f : ∀ node w node' w',
  children_loop f node w = (Ok node', w') →
  ∀ t, t ∈ child_tags f → tag_id t ∈ hack w'.
Proof.
  induction f as [|e rest IH]; intros node w node' w' Hrun t Ht.
  { by apply elem_of_nil in Ht. }
  destruct e as [c| |]; cbn [children_loop child_tags] in *; [|by eapply IH..].
  unfold bind in Hrun.
  pose proof (parse_properties_marks c rest node w) as Hmark.
  rewrite parse_properties_eq in Hmark.
  destruct (parse_properties_with _ _ c node w) as [[node1|?] w1]; [|done].
  apply elem_of_cons in Ht as [->|Ht]; [|by eapply IH].
  destruct (proj1 (safe_loops (λ _, True) (λ _ _, I) rest) node1 w1) as (Hgrow & _).
  rewrite Hrun in Hgrow. by apply Hgrow.
Qed.

Lemma siblings_loop_marks f : ∀ node w node' w',
  siblings_loop f node w = (Ok node', w') →
  ∀ t, t ∈ label_group f → tag_id t ∈ hack w'.
Proof.
  induction f as [|e rest IH]; intros node w node' w' Hrun t Ht.
  { by apply elem_of_nil in Ht. }
  destruct e as [s| |]; cbn [siblings_loop label_group] in *; [|by eapply IH..].
  destruct (is_start_tag s); [by apply elem_of_nil in Ht|].
  unfold bind in Hrun.
  pose proof (parse_properties_marks s rest node w) as Hmark.
  rewrite parse_properties_eq in Hmark.
  destruct (parse_properties_with _ _ s node w) as [[node1|?] w1]; [|done].
  apply elem_of_cons in Ht as [->|Ht]; [|by eapply IH].
  destruct (proj2 (safe_loops (λ _, True) (λ _ _, I) rest) node1 w1) as (Hgrow & _).
  rewrite Hrun in Hgrow. by apply Hgrow.
Qed.

Lemma siblings_loop_bound f : ∀ node w i,
  i ∈ hack (siblings_loop f node w).2 →
  i ∈ hack w ∨ ∃ t, t ∈ label_group f ∧ i ∈ tag_ids t.
Proof.
  induction f as [|e rest IH]; intros node w i Hi; [by left|].
  destruct e as [s| |]; cbn [siblings_loop label_group] in *; [|by apply (IH node)..].
  destruct (is_start_tag s) eqn:Hstart; [by left|].
  unfold bind in Hi.
  pose proof (safe_parse_properties_nonlabel (λ _, True) (λ _ _, I) s rest node Hstart w)
    as (_ & Hbound & _).
  rewrite parse_properties_eq in Hbound.
  destruct (parse_properties_with _ _ s node w) as [[node1|?] w1]; cbn in *.
  - destruct (IH node1 w1 i Hi) as [Hw1|(t & Ht & Hit)].
    + destruct (Hbound i Hw1); [by left|]. right. exists s. split; [set_solver|done].
    + right. exists t. split; [set_solver|done].
  - destruct (Hbound i Hi); [by left|]. right. exists s. split; [set_solver|done].
Qed.

(** After a completed pass of [parse_children_properties] every child tag
    is in [hack], so none of them is processed again during the parse. *)
Theorem children_all_marked parent node w node' w' t :
  parse_children_properties parent node w = (Ok node', w') →
  t ∈ child_tags (tag_contents parent) →
  tag_id t ∈ hack w'.
Proof. intros Hrun. by apply (children_loop_marks _ node w node' w'). Qed.

Lemma children_all_marked_witness :
  tag_id span_num ∈ hack (World {[ 4; 3 ]} []).
Proof.
  apply (children_all_marked article_first [] fresh_world
           [("title", VDict [("num", VStr "42")])] (World {[ 4; 3 ]} []) span_num).
  - vm_compute. reflexivity.
  - vm_compute. set_solver.
Defined.

Lemma children_loop_groups f : ∀ node w node' w' key,
  NoDup (forest_ids f) →
  (∀ t, t ∈ label_group f → tag_id t ∈ hack w) →
  (∀ i, i ∈ forest_ids f → i ∈ hack w → ∃ t, t ∈ label_group f ∧ i ∈ tag_ids t) →
  children_loop f node w = (Ok node', w') →
  dict_get key node' = dict_get key node
  ∨ ∃ t, t ∈ child_tags f ∧ is_start_tag t = true
         ∧ ∀ w0, (parse_label t w0).1 = Ok key.
Proof.
  induction f as [|e rest IH]; intros node w node' w' key Hnd Hmarked Hfresh Hrun.
  { injection Hrun as <- _. by left. }
  destruct e as [t| |];
    cbn [children_loop label_group child_tags forest_ids] in *;
    [|by apply (IH node w node' w')..].
  apply NoDup_cons in Hnd as [Ht Hnd].
  apply NoDup_app in Hnd as (_ & Hdisj & Hnd).
  assert (∀ A (P : tag → A → Prop) (x : A),
            (∃ t', t' ∈ child_tags rest ∧ is_start_tag t' = true ∧ P t' x) →
            ∃ t', t' ∈ t :: child_tags rest ∧ is_start_tag t' = true ∧ P t' x)
    as Hlater.
  { intros A P x (t' & Ht' & Hrest). exists t'. split; [set_solver|done]. }
  rewrite <- parse_properties_eq in Hrun. unfold bind in Hrun.
  destruct (is_start_tag t) eqn:Hstart.
  - assert (tag_id t ∉ hack w) as Hnew.
    { intros Hin. destruct (Hfresh (tag_id t)) as (? & []%elem_of_nil & _);
        [set_solver|done]. }
    rewrite parse_properties_label in Hrun by done.
    destruct (parse_label_returns t) as [label Hlabel]. unfold bind at 1 in Hrun.
    set (w1 := World ({[tag_id t]} ∪ hack w) (warnings w)) in *.
    assert (∃ w2, parse_label t w1 = (Ok label, w2) ∧ hack w2 = hack w1)
      as (w2 & Hl & Hw2).
    { destruct (Hlabel w1) as [->|(_ & _ & ->)]; eauto. }
    rewrite Hl in Hrun. unfold bind, parse_siblings_properties in Hrun.
    pose proof (siblings_loop_bound rest [] w2) as Hbound.
    destruct (siblings_loop rest [] w2) as [[child|?] w3] eqn:Hsib; [|done].
    cbn in Hrun.
    destruct (IH (dict_set label (VDict child) node) w3 node' w' key)
      as [Hsame|Hlabelled]; [done| | |done| |].
    + by apply (siblings_loop_marks rest [] w2 child w3).
    + intros i Hi Hin. destruct (Hbound i Hin) as [Hw2'|?]; [|done].
      rewrite Hw2 in Hw2'. cbn in Hw2'.
      apply elem_of_union in Hw2' as [->%elem_of_singleton|Hw].
      * destruct Ht. set_solver.
      * destruct (Hfresh i) as (? & []%elem_of_nil & _); [set_solver|done].
    + destruct (decide (key = label)) as [->|Hne].
      * right. exists t. split_and!; [set_solver|done|].
        intros w0. by destruct (Hlabel w0) as [->|(_ & _ & ->)].
      * left. by rewrite Hsame, dict_get_set_ne.
    + right. by apply (Hlater _ (λ t' k, ∀ w0, (parse_label t' w0).1 = Ok k)).
  - rewrite parse_properties_visited in Hrun by (apply Hmarked; set_solver).
    destruct (IH node w node' w' key) as [Hsame|Hlabelled]; [done| | |done| |].
    + intros t' Ht'. apply Hmarked. set_solver.
    + intros i Hi Hin. destruct (Hfresh i) as (t' & Ht' & Hit'); [set_solver|done|].
      apply elem_of_cons in Ht' as [->|Ht']; [|by exists t'].
      unfold tag_ids in Hit'. apply elem_of_cons in Hit' as [->|Hit'].
      * destruct Ht. set_solver.
      * destruct (Hdisj i Hit' Hi).
    + by left.
    + right. by apply (Hlater _ (λ t' k, ∀ w0, (parse_label t' w0).1 = Ok k)).
Qed.

(** When the children of a tag start with a label tag and are walked for
    the first time, the only keys of the parent's node that change are
    labels of label tags among the children: the tags that follow a label
    go into the label's node and are not collected into the parent a second
    time. *)
Theorem only_labels_after_a_label parent node w node' w' key :
  label_group (tag_contents parent) = [] →
  NoDup (forest_ids (tag_contents parent)) →
  (∀ i, i ∈ forest_ids (tag_contents parent) → i ∉ hack w) →
  parse_children_properties parent node w = (Ok node', w') →
  dict_get key node' = dict_get key node
  ∨ ∃ t, t ∈ child_tags (tag_contents parent) ∧ is_start_tag t = true
         ∧ ∀ w0, (parse_label t w0).1 = Ok key.
Proof.
  intros Hgroup Hnd Hnew Hrun.
  apply (children_loop_groups _ node w node' w'); [done| | |done].
  - rewrite Hgroup. by intros t ?%elem_of_nil.
  - intros i Hi Hin. destruct (Hnew i Hi Hin).
Qed.

Lemma only_labels_after_a_label_witness :
  dict_get "num" [("title", VDict [("num", VStr "42")])] = dict_get "num" []
  ∨ ∃ t, t ∈ child_tags (tag_contents article_first) ∧ is_start_tag t = true
         ∧ ∀ w0, (parse_label t w0).1 = Ok "num".
Proof.
  apply (only_labels_after_a_label article_first [] fresh_world
           [("title", VDict [("num", VStr "42")])] (World {[ 4; 3 ]} []) "num").
  - reflexivity.
  - vm_compute. repeat constructor; set_solver.
  - intros i _. cbn [fresh_world hack]. apply not_elem_of_empty.
  - vm_compute. reflexivity.
Defined.

(** *** The empty label *)

Lemma lower_nonempty s : s ≠ EmptyString → PyStr.lower s ≠ EmptyString.
Proof. by destruct s. Qed.

(** The label is the empty string exactly when the label tag has no
    [.string], or its text is blank, or the first word of the text starts
    with a character that is not alphanumeric: all such label tags share the
    key [""] in their parent's node. *)
Theorem parse_label_empty_iff t w :
  (parse_label t w).1 = Ok EmptyString
  ↔ match dot_string t with
    | None => True
    | Some raw =>
        match PyStr.split (PyStr.strip raw) with
        | [] => True
        | first :: _ => leading_alnum first = false
        end
    end.
Proof.
  unfold parse_label. destruct (dot_string t) as [raw|]; [|done].
  destruct (parse_label_loop_spec (PyStr.split (PyStr.strip raw)) 0 []
              (split_nonempty _)) as (kept & rest & Hsplit & Hkept & Hhead & Hrun).
  unfold bind. rewrite Hrun, Hsplit. cbn [fst app].
  destruct kept as [|first others]; cbn [app camel_case].
  - split; [|done]. intros _. destruct rest as [|r rest]; [done|]. by apply Hhead.
  - apply Forall_cons in Hkept as [Hlead _]. rewrite Hlead. split; [|done].
    intros [= Hjoin]. unfold PyStr.join_empty in Hjoin. cbn [fold_right] in Hjoin.
    destruct first as [|c tl]; [done|]. by cbn in Hjoin.
Qed.

(** *** What the tags of a document can make the walker raise *)

Lemma safe_loops_tags (E : exn → Prop) f :
  Forall (tag_raises E) (forest_tags f) →
  (∀ n, safe E (forest_ids f) (children_loop f n))
  ∧ (∀ n, safe E (forest_ids f) (siblings_loop f n)).
Proof.
  induction f as [t IH| | |i nm a c IH| |e IHe r IHr]
    using forest_mut
    with (P := λ e, match e with
                    | ETag t =>
                        Forall (tag_raises E) (forest_tags (tag_contents t)) →
                        ∀ n, safe E (forest_ids (tag_contents t))
                               (children_loop (tag_contents t) n)
                    | _ => True
                    end)
         (P0 := λ t, Forall (tag_raises E) (forest_tags (tag_contents t)) →
                     ∀ n, safe E (forest_ids (tag_contents t))
                            (children_loop (tag_contents t) n)).
  - done.
  - done.
  - done.
  - intros Hall n. by apply IH.
  - intros _. split; intros n; apply safe_ret.
  - intros Hall.
    assert (Forall (tag_raises E) (forest_tags r)) as Hr.
    { destruct e; cbn in Hall; [|done..].
      apply Forall_cons in Hall as [_ Hall]. by apply Forall_app in Hall as [_ ?]. }
    destruct (IHr Hr) as [IHc IHs].
    assert (∀ A (m : M A), safe E (forest_ids r) m → safe E (forest_ids (fcons e r)) m)
      as Hrest.
    { intros A m. apply safe_weaken. destruct e; cbn; set_solver. }
    destruct e as [t| |]; cbn [children_loop siblings_loop];
      [|split; intros n; apply Hrest; done..].
    cbn in Hall. apply Forall_cons in Hall as [[Hrepeat Hlist] Hall].
    apply Forall_app in Hall as [Hc _].
    assert (∀ n, safe E (forest_ids (fcons (ETag t) r))
                   (parse_properties_with (siblings_loop r)
                      (children_loop (tag_contents t)) t n)) as Hstep.
    { intros n. unfold parse_properties_with.
      apply safe_bind; [apply safe_hack_mem|]. intros [|]; [apply safe_ret|].
      apply safe_bind; [apply safe_hack_add; cbn; set_solver|]. intros _.
      assert (∀ n', safe E (forest_ids (fcons (ETag t) r))
                      (children_loop (tag_contents t) n')) as Hwc.
      { intros n'. eapply safe_weaken; [|by apply IHe]. cbn. set_solver. }
      destruct (is_start_tag t).
      { apply safe_bind; [apply safe_parse_label|]. intros label.
        apply safe_bind; [apply Hrest, IHs|]. intros ?. apply safe_ret. }
      destruct (truthy _) as [[property_name|l]|]; [| |apply Hwc].
      - destruct (named _ _); [apply safe_ret|].
        apply safe_bind; [by apply safe_property_value_with|]. intros value.
        destruct (has_attr t "repeat"); [|apply safe_ret].
        repeat case_match; first [apply safe_ret | by apply safe_raise, Hrepeat].
      - by apply safe_raise, (Hlist l). }
    split; intros n.
    + apply safe_bind; [apply Hstep|]. intros n'. apply Hrest, IHc.
    + destruct (is_start_tag t); [apply safe_ret|].
      apply safe_bind; [apply Hstep|]. intros n'. apply Hrest, IHs.
Qed.

Lemma parse_properties_tags (E : exn → Prop) t next_siblings node w e :
  Forall (tag_raises E) (t :: forest_tags (tag_contents t) ++ forest_tags next_siblings) →
  (parse_properties t next_siblings node w).1 = Raise e → E e.
Proof.
  intros Hall Hraise.
  destruct (proj1 (safe_loops_tags E (fcons (ETag t) next_siblings) Hall) node w)
    as (_ & _ & Hsafe).
  apply Hsafe. cbn [children_loop]. rewrite <- parse_properties_eq. unfold bind.
  by destruct (parse_properties t next_siblings node w) as [[?|?] ?]; cbn in *.
Qed.

Lemma descendants_tags f : ∀ parents d,
  d ∈ descendants parents f →
  loc_tag d ∈ forest_tags f
  ∧ (∀ t, t ∈ forest_tags (tag_contents (loc_tag d)) → t ∈ forest_tags f)
  ∧ (∀ t, t ∈ forest_tags (loc_next_siblings d) → t ∈ forest_tags f).
Proof.
  induction f as [t IH| | |i nm a c IH| |e IHe r IHr]
    using forest_mut
    with (P := λ e, match e with
                    | ETag t =>
                        ∀ parents d,
                          d ∈ descendants parents (tag_contents t) →
                          loc_tag d ∈ forest_tags (tag_contents t)
                          ∧ (∀ u, u ∈ forest_tags (tag_contents (loc_tag d)) →
                                  u ∈ forest_tags (tag_contents t))
                          ∧ (∀ u, u ∈ forest_tags (loc_next_siblings d) →
                                  u ∈ forest_tags (tag_contents t))
                    | _ => True
                    end)
         (P0 := λ t, ∀ parents d,
                  d ∈ descendants parents (tag_contents t) →
                  loc_tag d ∈ forest_tags (tag_contents t)
                  ∧ (∀ u, u ∈ forest_tags (tag_contents (loc_tag d)) →
                          u ∈ forest_tags (tag_contents t))
                  ∧ (∀ u, u ∈ forest_tags (loc_next_siblings d) →
                          u ∈ forest_tags (tag_contents t)));
    try done.
  - intros parents d Hd. by apply elem_of_nil in Hd.
  - intros parents d Hd. destruct e as [t| |]; cbn in *; [|eauto..].
    apply elem_of_cons in Hd as [->|Hd]; [cbn; set_solver|].
    apply elem_of_app in Hd as [Hd|Hd].
    + destruct (IHe _ _ Hd) as (H1 & H2 & H3). set_solver.
    + destruct (IHr _ _ Hd) as (H1 & H2 & H3). set_solver.
Qed.

(** The tags the walker can reach from the article are tags of the
    document. *)
Lemma article_tags soup root article :
  soup_html soup = Some root →
  find root (named "article") = Some article →
  ∀ t, t ∈ loc_tag article :: forest_tags (tag_contents (loc_tag article))
             ++ forest_tags (loc_next_siblings article) →
       t ∈ forest_tags soup.
Proof.
  unfold soup_html, find, find_all, tag_descendants. intros Hroot Harticle.
  apply head_Some_elem_of, list_elem_of_filter in Hroot as [_ Hroot].
  apply head_Some_elem_of, list_elem_of_filter in Harticle as [_ Harticle].
  apply descendants_tags in Hroot as (_ & Hroot & _).
  apply descendants_tags in Harticle as (Ha & Hac & Has).
  intros t [->|[Ht|Ht]%elem_of_app]%elem_of_cons; auto.
Qed.

(** *** Without [repeat], no [AttributeError] *)

(** A document in which no tag has the attribute [repeat] never makes
    [parse_html] raise [AttributeError]. *)
Theorem no_repeat_no_attribute_error soup w :
  Forall (λ t, has_attr t "repeat" = false) (forest_tags soup) →
  (parse_html soup w).1 ≠ Raise AttributeError.
Proof.
  intros Hall. unfold parse_html.
  destruct (soup_html soup) as [root|] eqn:Hroot; [|done].
  destruct (find root (named "article")) as [article|] eqn:Harticle; [|done].
  unfold bind.
  destruct (parse_properties _ _ _ w) as [[data|e] w1] eqn:Hwalk.
  - intros Hraise.
    destruct (safe_sections_loop_sites not_attribute_error
                (find_all article is_section)) with (node := data) (w := w1)
      as (_ & _ & Hsec).
    + intros e He. unfold section_exn in He. unfold not_attribute_error.
      repeat destruct He as [He|He]; by rewrite He.
    + by apply (Hsec AttributeError).
  - cbn. intros [= ->].
    apply (parse_properties_tags not_attribute_error (loc_tag article)
             (loc_next_siblings article) [] w AttributeError); [|by rewrite Hwalk|done].
    apply Forall_forall. intros t Ht.
    apply (article_tags soup root article Hroot Harticle) in Ht.
    rewrite Forall_forall in Hall. split; [|done].
    intros Hrepeat. rewrite (Hall t Ht) in Hrepeat. done.
Qed.

Lemma no_repeat_no_attribute_error_witness :
  (parse_html soup_first fresh_world).1 ≠ Raise AttributeError.
Proof.
  apply (no_repeat_no_attribute_error soup_first fresh_world).
  vm_compute. repeat constructor.
Defined.

(** *** When a parse succeeds *)





Example parse_html_sample :
  (parse_html soup_sample fresh_world).1
  = Ok [("title", VDict [("num", VStr "42")]);
        ("abstract", VDict [("content", VStr "Sample")])].
Proof. vm_compute. reflexivity. Qed.

(** *** The keys of a description and of the claims *)

Lemma dict_except_class t k v :
  k ≠ "class" →
  dict_get "class" (dict (attrs_except_class t ++ [(k, v)])) = None
  ∧ dict_get k (dict (attrs_except_class t ++ [(k, v)])) = Some v.
Proof.
  intros Hk. split.
  - apply dict_get_None. unfold dict.
    rewrite dict_keys_fold, map_app, elem_of_app, attrs_except_class_keys. cbn.
    set_solver.
  - rewrite dict_snoc. apply dict_get_set_eq.
Qed.

(** The node of a description and the node of the claims never have the key
    [class] (the abstract's node keeps it); [parts] and [claims] always hold
    a list, also when the tag has an attribute of that name, and every entry
    of the claims list is a node without [class] and with a [text]. *)
Theorem description_and_claims_nodes section w :
  (∀ fields w',
     parse_description section w = (Ok fields, w') →
     dict_get "class" (dict fields) = None
     ∧ ∃ parts, dict_get "parts" (dict fields) = Some (VList parts))
  ∧ (∀ fields w',
       parse_claims section w = (Ok fields, w') →
       dict_get "class" (dict fields) = None
       ∧ ∃ claims,
           dict_get "claims" (dict fields) = Some (VList claims)
           ∧ Forall (λ entry, ∃ d, entry = VDict d
                                   ∧ dict_get "class" d = None
                                   ∧ is_Some (dict_get "text" d)) claims).
Proof.
  split; intros fields w'.
  - unfold parse_description.
    destruct (find section (class_matches "description")) as [description|]; [|done].
    intros [= <- _]. destruct (dict_except_class (loc_tag description) "parts"
      (VList (map part_node (description_parts description)))) as [Hclass Hparts];
      [done|].
    split; [done|]. by eexists.
  - unfold parse_claims.
    destruct (find section (λ t, has_class t "claims")) as [claims_tag|]; [|done].
    unfold bind. destruct (find_claims claims_tag w) as [[claims|?] w1]; [|done].
    intros [= <- _].
    destruct (dict_except_class (loc_tag claims_tag) "claims"
      (VList (map (λ claim, VDict (dict (parse_claim claim))) claims)))
      as [Hclass Hclaims]; [done|].
    split; [done|]. eexists. split; [done|].
    apply Forall_forall. intros entry Hentry.
    apply list_elem_of_In, in_map_iff in Hentry as (claim & <- & _).
    destruct (dict_except_class claim "text" (VStr (get_text_strip claim)))
      as [Hc Ht]; [done|].
    eexists. split_and!; [done|done|]. unfold parse_claim. by rewrite Ht.
Qed.

(** *** A bounded call stack and an unbounded one *)



(** *** Two frames for every level of nesting *)







